(** * meme-stickers-hub: the Sekai-like pack transformer

    A shallow embedding of [scripts/transform_sekai_like.py] and the
    properties its specification states about it.

    Conventions of the embedding.
    - A Python [str] is a [string]; the embedding covers ASCII text (the
      colours, categories and paths of the two upstream sources are ASCII).
      [str.upper] can change the length of text outside ASCII, which the
      8-bit characters here do not represent.
    - A Python [int] is a [Z]; a Python [float] is a binary64 [float].
    - A raised exception is the left injection of a sum; the exceptions are
      told apart by the place that raises them.
    - A [dict] is an association list in insertion order with unique keys. *)

From Stdlib Require Import String Ascii List ZArith NArith Lia Bool.
From Stdlib Require Import Sorted Permutation.
From Stdlib Require Import Floats.PrimFloat.
Import ListNotations.

Open Scope string_scope.
Open Scope Z_scope.

(** ** Exceptions *)

(** The exceptions the module can raise, one constructor per raise site.
    [InvalidColorFormat] and [InvalidLiteral] are both [ValueError] in
    Python; [StringIndexError] and [ListIndexError] are both [IndexError]. *)
Inductive exn : Type :=
| InvalidColorFormat              (* raise ValueError("Invalid color format") *)
| InvalidLiteral (s : string)     (* int(s, 16): invalid literal for int() *)
| StringIndexError                (* name[0]: string index out of range *)
| ListIndexError                  (* chars[0]: list index out of range *)
| ManifestInvalid                 (* type_validate_json of the manifest file *)
| FetchFailed                     (* characters JSON: transport, status or schema *)
| DownloadFailed                  (* an asset request failed *)
| MissingFontFile (p : string).   (* calc_checksum_from_file on an absent font *)

Inductive exn_class : Type := ValueError | IndexError | OtherError.

Definition class_of (e : exn) : exn_class :=
  match e with
  | InvalidColorFormat | InvalidLiteral _ => ValueError
  | StringIndexError | ListIndexError => IndexError
  | _ => OtherError
  end.

(** The result of a call that may raise. *)
Definition result (A : Type) : Type := (exn + A)%type.

Definition ok {A} (a : A) : result A := inr a.
Definition raise {A} (e : exn) : result A := inl e.

Definition rbind {A B} (m : result A) (k : A -> result B) : result B :=
  match m with
  | inl e => inl e
  | inr a => k a
  end.

Declare Scope result_scope.
Delimit Scope result_scope with result.
Notation "x <- m ;; k" := (rbind m (fun x => k))
  (at level 61, m at next level, right associativity) : result_scope.

(** Evaluate the calls of a comprehension from left to right; the first
    exception ends it. *)
Fixpoint mapM {A B} (f : A -> result B) (l : list A) : result (list B) :=
  match l with
  | [] => ok []
  | a :: l' =>
      (b <- f a ;;
       bs <- mapM f l' ;;
       ok (b :: bs))%result
  end.

(** ** Python string operations *)

(** [str.upper] on ASCII text: [a]..[z] move to [A]..[Z]. *)
Definition upper_ascii (c : ascii) : ascii :=
  let n := N_of_ascii c in
  if (97 <=? n)%N && (n <=? 122)%N then ascii_of_N (n - 32) else c.

Fixpoint upper (s : string) : string :=
  match s with
  | EmptyString => EmptyString
  | String c s' => String (upper_ascii c) (upper s')
  end.

(** [s[i:j]] for [0 <= i <= j]; a slice never raises. *)
Definition slice (i j : nat) (s : string) : string := substring i (j - i) s.

(** [s[i:]] and [s[:j]]. *)
Definition slice_from (i : nat) (s : string) : string :=
  substring i (String.length s - i) s.
Definition slice_to (j : nat) (s : string) : string := substring 0 j s.

(** [s.removeprefix(p)]. *)
Definition removeprefix (p s : string) : string :=
  if prefix p s then slice_from (String.length p) s else s.

(** [s[i]] for [i >= 0]: a string of one character, or IndexError. *)
Definition str_getitem (s : string) (i : nat) : result string :=
  match get i s with
  | Some c => ok (String c EmptyString)
  | None => raise StringIndexError
  end.

(** Iterating over a string yields its characters as one-character strings. *)
Fixpoint iter_str (s : string) : list string :=
  match s with
  | EmptyString => []
  | String c s' => String c EmptyString :: iter_str s'
  end.

(** [s * n]. *)
Fixpoint str_mul (s : string) (n : nat) : string :=
  match n with
  | O => EmptyString
  | S n' => s ++ str_mul s n'
  end.

(** [sep.join(parts)]. *)
Definition join (sep : string) (parts : list string) : string := String.concat sep parts.

(** [s.split(sep)] for a separator of one character: the pieces between
    the separators, so that a string without one is a single piece. *)
Fixpoint split_on (sep : ascii) (s : string) : list string :=
  match s with
  | EmptyString => [EmptyString]
  | String c s' =>
      if Ascii.eqb c sep then EmptyString :: split_on sep s'
      else match split_on sep s' with
           | [] => [String c EmptyString]
           | piece :: pieces => String c piece :: pieces
           end
  end.

(** ** [int(s, 16)] *)

(** The digit table of the integer parser: [0-9] and the letters of either
    case as 10 to 35. *)
Definition digit_value (c : ascii) : option Z :=
  let n := N_of_ascii c in
  if (48 <=? n)%N && (n <=? 57)%N then Some (Z.of_N (n - 48))
  else if (65 <=? n)%N && (n <=? 90)%N then Some (Z.of_N (n - 55))
  else if (97 <=? n)%N && (n <=? 122)%N then Some (Z.of_N (n - 87))
  else None.

Definition hex_value (c : ascii) : option Z :=
  match digit_value c with
  | Some d => if d <? 16 then Some d else None
  | None => None
  end.

Definition is_hex (c : ascii) : bool :=
  match hex_value c with Some _ => true | None => false end.

(** White space the parser skips at both ends of ASCII text. *)
Definition is_space (c : ascii) : bool :=
  let n := N_of_ascii c in
  ((9 <=? n)%N && (n <=? 13)%N) || (n =? 32)%N.

Fixpoint skip_space (s : string) : string :=
  match s with
  | String c s' => if is_space c then skip_space s' else s
  | EmptyString => EmptyString
  end.

(** Scan digits and single underscores between them. [prev_us] tells that
    the last character read was an underscore. Returns the value, the number
    of digits and the unread rest, or [None] on a doubled or trailing
    underscore. *)
Fixpoint scan_digits (s : string) (prev_us : bool) (acc : Z) (digits : nat)
  : option (Z * nat * string) :=
  let stop := if prev_us then None else Some (acc, digits, s) in
  match s with
  | EmptyString => stop
  | String c s' =>
      if Ascii.eqb c "_" then
        if prev_us then None else scan_digits s' true acc digits
      else match hex_value c with
           | Some d => scan_digits s' false (acc * 16 + d) (S digits)
           | None => stop
           end
  end.

(** [int(s, 16)] on ASCII text: optional white space, sign and [0x] prefix,
    then hexadecimal digits. *)
Definition int16 (s : string) : result Z :=
  let bad := raise (InvalidLiteral s) in
  let s1 := skip_space s in
  let '(sign, s2) :=
    match s1 with
    | String "+" r => (1, r)
    | String "-" r => (-1, r)
    | _ => (1, s1)
    end in
  let s3 :=
    match s2 with
    | String "0" (String x r) =>
        if Ascii.eqb x "x" || Ascii.eqb x "X" then
          match r with
          | String "_" r' => r'
          | _ => r
          end
        else s2
    | _ => s2
    end in
  match s3 with
  | String "_" _ => bad
  | _ =>
      match scan_digits s3 false 0 0 with
      | None => bad
      | Some (_, O, _) => bad
      | Some (v, S _, rest) =>
          match skip_space rest with
          | EmptyString => ok (sign * v)
          | String _ _ => bad
          end
      end
  end.

(** ** The colour normaliser *)

(** [RGBAColorTuple]: a tuple of integers. *)
Definition RGBAColorTuple : Type := list Z.

(** [range(0, 8, 2)]. *)
Definition range_0_8_2 : list nat := [0; 2; 4; 6]%nat.

Definition web_hex_to_color_tuple (color : string) : result RGBAColorTuple :=
  let color := removeprefix "#" (upper color) in
  (color <-
     (if Nat.eqb (String.length color) 3 then
        ok (join "" (map (fun c => str_mul c 2) (iter_str color) ++ ["FF"]))
      else if Nat.eqb (String.length color) 4 then
        (c0 <- str_getitem color 0 ;;
         ok (join "" (map (fun c => str_mul c 2) (iter_str (slice_from 1 color))
                      ++ [str_mul c0 2])))
      else if Nat.eqb (String.length color) 6 then
        ok (color ++ "FF")
      else if Nat.eqb (String.length color) 8 then
        ok (slice_from 2 color ++ slice_to 2 color)
      else
        raise InvalidColorFormat) ;;
   mapM (fun i => int16 (slice i (i + 2) color)) range_0_8_2)%result.


(** ** The source schemas *)

Module CharacterDefaultText.
Record t : Type := mk
  { text : string;
    x : Z;
    y : Z;
    r : float;
    s : Z }.
End CharacterDefaultText.

Module SekaiCharacter.
Record t : Type := mk
  { id : string;
    name : string;
    character : string;
    img : string;
    color : string;
    default_text : CharacterDefaultText.t }.
End SekaiCharacter.

Module ArcaeaCharacter.
Record t : Type := mk
  { id : string;
    name : string;
    character : string;
    img : string;
    fill_color : string;
    stroke_color : string;
    default_text : CharacterDefaultText.t }.
End ArcaeaCharacter.

(** [Character = Union[SekaiCharacter, ArcaeaCharacter]]; [isinstance] is the
    match on the constructor. *)
Inductive Character : Type :=
| Sekai (c : SekaiCharacter.t)
| Arcaea (c : ArcaeaCharacter.t).

(** [Characters]: the annotation asks for a list of one variant; the
    functions below take any list of characters, as the code does. *)
Definition Characters : Type := list Character.

Definition is_SekaiCharacter (char : Character) : bool :=
  match char with Sekai _ => true | Arcaea _ => false end.

Definition is_ArcaeaCharacter (char : Character) : bool :=
  match char with Sekai _ => false | Arcaea _ => true end.

(** The attributes both variants have. *)
Definition char_name (char : Character) : string :=
  match char with
  | Sekai c => SekaiCharacter.name c
  | Arcaea c => ArcaeaCharacter.name c
  end.

Definition char_character (char : Character) : string :=
  match char with
  | Sekai c => SekaiCharacter.character c
  | Arcaea c => ArcaeaCharacter.character c
  end.

Definition char_img (char : Character) : string :=
  match char with
  | Sekai c => SekaiCharacter.img c
  | Arcaea c => ArcaeaCharacter.img c
  end.

Definition char_default_text (char : Character) : CharacterDefaultText.t :=
  match char with
  | Sekai c => SekaiCharacter.default_text c
  | Arcaea c => ArcaeaCharacter.default_text c
  end.

(** ** What the module imports

    The sticker-pack schema, the URL library and the checksum function live
    outside this repository; the embedding takes them as parameters. *)
Class Externals : Type :=
  { StickerPackConfig : Type;
    StickerPackConfig_default : StickerPackConfig;    (* StickerPackConfig() *)
    StickerGridSetting : Type;
    StickerGridSetting_default : StickerGridSetting;  (* StickerGridSetting() *)
    SampleSticker : Type;
    ExternalFont : Type;
    font_path : ExternalFont -> string;               (* f.path *)
    URL_name : string -> string;                      (* URL(s).name *)
    calc_checksum : list Byte.byte -> string;
    retries : nat }.                                  (* retries [op_retry()] grants *)

Module StickerParamsOptional.
Record t : Type := mk
  { width : option Z;
    height : option Z;
    base_image : option string;
    text : option string;
    text_x : option Z;
    text_y : option Z;
    text_align : option string;
    text_rotate_degrees : option float;
    text_color : option RGBAColorTuple;
    stroke_color : option RGBAColorTuple;
    stroke_width_factor : option float;
    font_size : option Z;
    font_style : option string;
    font_families : option (list string) }.

(** The parameter bag with nothing set. *)
Definition unset : t :=
  mk None None None None None None None None None None None None None None.
End StickerParamsOptional.

Module StickerInfoOptionalParams.
Record t : Type := mk
  { name : string;
    category : string;
    params : StickerParamsOptional.t }.
End StickerInfoOptionalParams.

Module StickerPackManifest.
Record t `{Externals} : Type := mk
  { version : Z;
    name : string;
    description : string;
    default_config : StickerPackConfig;
    default_sticker_params : StickerParamsOptional.t;
    sticker_grid : StickerGridSetting;
    sample_sticker : option SampleSticker;
    external_fonts : list ExternalFont;
    stickers : list StickerInfoOptionalParams.t }.
End StickerPackManifest.

(** ** Paths *)

Definition normalize_character_name (name : string) : result string :=
  (c0 <- str_getitem name 0 ;;
   ok (upper c0 ++ slice_from 1 name))%result.

Definition to_local_path `{Externals} (char : Character) : result string :=
  (dir <- normalize_character_name (char_character char) ;;
   ok (dir ++ "/" ++ URL_name (char_img char)))%result.

(** ** The manifest transformer *)

Definition WIDTH : Z := 296.
Definition HEIGHT : Z := 256.
Definition STROKE_COLOR : RGBAColorTuple := [255; 255; 255; 255].
Definition STROKE_FACTOR : float := (9 / 38)%float.

(** [math.pi] and [math.degrees]: the product with the constant
    [180.0 / pi], in binary64. *)
Definition pi : float := 0x1.921fb54442d18p+1%float.
Definition degrees (x : float) : float := (x * (180 / pi))%float.

(** [chars[0]]. *)
Definition list_getitem0 {A} (l : list A) : result A :=
  match l with
  | a :: _ => ok a
  | [] => raise ListIndexError
  end.

(** The sticker descriptor of one character, its arguments evaluated in
    the order they are written. *)
Definition sticker_of `{Externals} (char : Character)
  : result StickerInfoOptionalParams.t :=
  (category <- normalize_character_name (char_character char) ;;
   base_image <- to_local_path char ;;
   text_color <-
     match char with
     | Sekai c => web_hex_to_color_tuple (SekaiCharacter.color c)
     | Arcaea c => web_hex_to_color_tuple (ArcaeaCharacter.fill_color c)
     end ;;
   stroke_color <-
     match char with
     | Arcaea c =>
         t <- web_hex_to_color_tuple (ArcaeaCharacter.stroke_color c) ;;
         ok (Some t)
     | Sekai _ => ok None
     end ;;
   let d := char_default_text char in
   ok {| StickerInfoOptionalParams.name := char_name char;
         StickerInfoOptionalParams.category := category;
         StickerInfoOptionalParams.params :=
           {| StickerParamsOptional.width := None;
              StickerParamsOptional.height := None;
              StickerParamsOptional.base_image := Some base_image;
              StickerParamsOptional.text := Some (CharacterDefaultText.text d);
              StickerParamsOptional.text_x := Some (CharacterDefaultText.x d);
              StickerParamsOptional.text_y := Some (CharacterDefaultText.y d);
              StickerParamsOptional.text_align := None;
              StickerParamsOptional.text_rotate_degrees :=
                Some (degrees (CharacterDefaultText.r d / 10));
              StickerParamsOptional.text_color := Some text_color;
              StickerParamsOptional.stroke_color := stroke_color;
              StickerParamsOptional.stroke_width_factor := None;
              StickerParamsOptional.font_size := Some (CharacterDefaultText.s d);
              StickerParamsOptional.font_style := None;
              StickerParamsOptional.font_families := None |} |})%result.

(** The default parameters built when there is no prior manifest. *)
Definition fresh_default_sticker_params (chars : Characters)
  : result StickerParamsOptional.t :=
  (c0 <- list_getitem0 chars ;;
   ok {| StickerParamsOptional.width := Some WIDTH;
         StickerParamsOptional.height := Some HEIGHT;
         StickerParamsOptional.base_image := None;
         StickerParamsOptional.text := None;
         StickerParamsOptional.text_x := None;
         StickerParamsOptional.text_y := None;
         StickerParamsOptional.text_align := Some "center";
         StickerParamsOptional.text_rotate_degrees := None;
         StickerParamsOptional.text_color := None;
         StickerParamsOptional.stroke_color :=
           if is_SekaiCharacter c0 then Some STROKE_COLOR else None;
         StickerParamsOptional.stroke_width_factor := Some STROKE_FACTOR;
         StickerParamsOptional.font_size := None;
         StickerParamsOptional.font_style := Some "normal";
         StickerParamsOptional.font_families := Some [] |})%result.

Definition transform_manifest `{Externals} (chars : Characters)
    (base_manifest : option StickerPackManifest.t)
  : result StickerPackManifest.t :=
  (default_sticker_params <-
     match base_manifest with
     | Some b => ok (StickerPackManifest.default_sticker_params b)
     | None => fresh_default_sticker_params chars
     end ;;
   stickers <- mapM sticker_of chars ;;
   ok {| StickerPackManifest.version :=
           match base_manifest with
           | Some b => StickerPackManifest.version b (* + 1 *)
           | None => 1
           end;
         StickerPackManifest.name :=
           match base_manifest with
           | Some b => StickerPackManifest.name b
           | None => "name"
           end;
         StickerPackManifest.description :=
           match base_manifest with
           | Some b => StickerPackManifest.description b
           | None => ""
           end;
         StickerPackManifest.default_config :=
           match base_manifest with
           | Some b => StickerPackManifest.default_config b
           | None => StickerPackConfig_default
           end;
         StickerPackManifest.default_sticker_params := default_sticker_params;
         StickerPackManifest.sticker_grid :=
           match base_manifest with
           | Some b => StickerPackManifest.sticker_grid b
           | None => StickerGridSetting_default
           end;
         StickerPackManifest.sample_sticker :=
           match base_manifest with
           | Some b => StickerPackManifest.sample_sticker b
           | None => None
           end;
         StickerPackManifest.external_fonts :=
           match base_manifest with
           | Some b => StickerPackManifest.external_fonts b
           | None => []
           end;
         StickerPackManifest.stickers := stickers |})%result.

(** ** The checksum dictionary *)

(** [ChecksumDict = dict[str, str]], in insertion order. *)
Definition ChecksumDict : Type := list (string * string).

(** [d[k] = v]: an existing key keeps its place and takes the new value; a
    new key goes to the end. *)
Fixpoint dict_set (d : ChecksumDict) (k v : string) : ChecksumDict :=
  match d with
  | [] => [(k, v)]
  | (k', v') :: d' =>
      if String.eqb k' k then (k', v) :: d' else (k', v') :: dict_set d' k v
  end.

(** [dict(items)]. *)
Definition dict_of_items (items : list (string * string)) : ChecksumDict :=
  fold_left (fun d kv => dict_set d (fst kv) (snd kv)) items [].

(** [a < b] on lists of strings, as Python compares lists: the first place
    where they differ decides, and a proper prefix is smaller. *)
Fixpoint list_lt (a b : list string) : bool :=
  match a, b with
  | [], [] => false
  | [], _ :: _ => true
  | _ :: _, [] => false
  | x :: a', y :: b' => if String.eqb x y then list_lt a' b' else String.ltb x y
  end.

(** [sorted(items, key=key)]: a stable sort that only asks [<] of the keys.
    Each element goes in front of the first one whose key is greater. *)
Fixpoint insert_by {A K} (lt : K -> K -> bool) (key : A -> K) (a : A) (l : list A)
  : list A :=
  match l with
  | [] => [a]
  | b :: l' =>
      if lt (key a) (key b) then a :: b :: l' else b :: insert_by lt key a l'
  end.

Definition sorted_by {A K} (lt : K -> K -> bool) (key : A -> K) (l : list A) : list A :=
  fold_left (fun acc a => insert_by lt key a acc) l [].

(** [lambda x: x[0].split("/")]. *)
Definition path_segments (item : string * string) : list string :=
  split_on "/" (fst item).

(** [dict(sorted(checksum.items(), key=lambda x: x[0].split("/")))]. *)
Definition sort_checksum (checksum : ChecksumDict) : ChecksumDict :=
  dict_of_items (sorted_by list_lt path_segments checksum).

(** ** Jobs: effects as a trace *)

(** What a job does to the outside, in the order it does it. *)
Inductive event `{Externals} : Type :=
| CharsGot (chars : Characters)                          (* chars_got_callback *)
| WriteAsset (path : string) (content : list Byte.byte)  (* file_path.write_bytes *)
| DownloadFinished (path checksum : string)              (* finish_callback *)
| WriteManifest (manifest : StickerPackManifest.t)       (* manifest_path.write_text *)
| WriteChecksum (checksum : ChecksumDict).               (* checksum_path.write_text *)

(** A computation that appends to the trace and returns or raises. *)
Definition job `{Externals} (A : Type) : Type :=
  list event -> list event * result A.

Definition jret `{Externals} {A} (a : A) : job A := fun t => (t, ok a).

Definition jbind `{Externals} {A B} (m : job A) (k : A -> job B) : job B :=
  fun t =>
    match m t with
    | (t', inl e) => (t', inl e)
    | (t', inr a) => k a t'
    end.

Definition lift `{Externals} {A} (r : result A) : job A := fun t => (t, r).

Definition emit `{Externals} (e : event) : job unit := fun t => ((t ++ [e])%list, ok tt).

Declare Scope job_scope.
Delimit Scope job_scope with job.
Notation "x <- m ;; k" := (jbind m (fun x => k))
  (at level 61, m at next level, right associativity) : job_scope.
Notation "m ;; k" := (jbind m (fun _ => k))
  (at level 61, right associativity) : job_scope.

(** What a run finds outside the program. *)
Record World `{Externals} : Type :=
  { (* the manifest file: absent, or what validating its text gives *)
    manifest_file : option (result StickerPackManifest.t);
    (* the retried GET of the characters JSON, its status check and parse *)
    characters_json : result Characters;
    (* the body the [k]-th attempt of download task [i] receives, or [None]
       when the request or its status check raises *)
    asset_response : nat -> nat -> option (list Byte.byte);
    (* [calc_checksum_from_file] of a font path, [None] when it raises *)
    font_file_checksum : string -> option string;
    (* the order in which the scheduler lets the download tasks finish *)
    finish_order : list nat }.

(** Modelled from the spec: [op_retry()] of the plugin's utilities, which is
    not part of this repository. The wrapped call is retried after a failure
    up to a fixed budget; exceeding the budget surfaces the final failure.
    [op k] is the [k]-th attempt. *)
Fixpoint op_retry `{Externals} {A} (budget : nat) (op : nat -> job A) (k : nat)
  : job A :=
  fun t =>
    match op k t with
    | (t', inr a) => (t', inr a)
    | (t', inl e) =>
        match budget with
        | O => (t', inl e)
        | S budget' => op_retry budget' op (S k) t'
        end
    end.

(** The order in which [n] gathered tasks finish: the scheduler's order
    where it names a task, then the tasks it left out. Every order of the
    tasks arises this way; the semaphore only rules some of them out. *)
Definition completion_order (n : nat) (hint : list nat) : list nat :=
  let named := nodup Nat.eq_dec (filter (fun i => Nat.ltb i n) hint) in
  named ++ filter (fun i => negb (existsb (Nat.eqb i) named)) (seq 0 n).

(** Run the tasks in the order they finish; the first exception ends the
    wait. *)
Fixpoint run_tasks `{Externals} {A} (task : nat -> job A) (order : list nat)
  : job (list (nat * A)) :=
  match order with
  | [] => jret []
  | i :: order' =>
      (a <- task i ;;
       done <- run_tasks task order' ;;
       jret ((i, a) :: done))%job
  end.

(** [await asyncio.gather] of the tasks: their results in the order of the
    tasks. *)
Definition gather `{Externals} {A} (hint : list nat) (tasks : list (job A))
  : job (list A) :=
  let n := List.length tasks in
  let task i :=
    match nth_error tasks i with
    | Some t => t
    | None => lift (raise DownloadFailed)  (* not reached: the order stays below n *)
    end in
  (done <- run_tasks task (completion_order n hint) ;;
   jret (flat_map
           (fun i =>
              match find (fun d => Nat.eqb (fst d) i) done with
              | Some d => [snd d]
              | None => []
              end)
           (seq 0 n)))%job.

Definition download_task `{Externals} (w : World) (i : nat) (char : Character)
  : job (string * string) :=
  op_retry retries
    (fun k =>
       (content <- lift match asset_response w i k with
                        | Some body => ok body
                        | None => raise DownloadFailed
                        end ;;
        let checksum := calc_checksum content in
        relative_path <- lift (to_local_path char) ;;
        emit (WriteAsset relative_path content) ;;
        emit (DownloadFinished relative_path checksum) ;;
        jret (relative_path, checksum))%job)
    O.

(** The tasks of [prepare_resources], numbered from [i]. *)
Fixpoint download_tasks `{Externals} (w : World) (i : nat) (chars : Characters)
  : list (job (string * string)) :=
  match chars with
  | [] => []
  | c :: chars' => download_task w i c :: download_tasks w (S i) chars'
  end.

Definition prepare_resources `{Externals} (w : World) (chars : Characters)
  : job ChecksumDict :=
  (result <- gather (finish_order w) (download_tasks w O chars) ;;
   jret (dict_of_items result))%job.

(** The loop over the prior manifest's fonts. *)
Fixpoint merge_fonts `{Externals} (w : World) (fonts : list ExternalFont)
    (checksum : ChecksumDict) : job ChecksumDict :=
  match fonts with
  | [] => jret checksum
  | f :: fonts' =>
      (sum <- lift match font_file_checksum w (font_path f) with
                   | Some h => ok h
                   | None => raise (MissingFontFile (font_path f))
                   end ;;
       merge_fonts w fonts' (dict_set checksum (font_path f) sum))%job
  end.

(** The prior manifest: validated when the file exists, none otherwise. *)
Definition read_original_manifest `{Externals} (w : World)
  : result (option StickerPackManifest.t) :=
  match manifest_file w with
  | Some (inr m) => ok (Some m)
  | Some (inl e) => raise e
  | None => ok None
  end.

Definition transform_sekai_like `{Externals} (w : World) : job unit :=
  (original_manifest <- lift (read_original_manifest w) ;;
   chars <- lift (characters_json w) ;;
   emit (CharsGot chars) ;;
   checksum <- prepare_resources w chars ;;
   checksum <- match original_manifest with
               | Some m => merge_fonts w (StickerPackManifest.external_fonts m) checksum
               | None => jret checksum
               end ;;
   let checksum := sort_checksum checksum in
   new_manifest <- lift (transform_manifest chars original_manifest) ;;
   emit (WriteManifest new_manifest) ;;
   emit (WriteChecksum checksum))%job.

(** Run a job from the empty trace. *)
Definition run `{Externals} {A} (j : job A) : list event * result A := j [].

Definition writes_manifest `{Externals} (e : event) : bool :=
  match e with WriteManifest _ => true | _ => false end.

Definition writes_checksum `{Externals} (e : event) : bool :=
  match e with WriteChecksum _ => true | _ => false end.

(** ** The entry point *)

Module TransformTaskConfig.
Record t : Type := mk
  { name : string;
    characters_json_url : string;
    res_base_url : string }.
End TransformTaskConfig.

(** The two jobs [_main] configures. *)
Definition task_configs : list TransformTaskConfig.t :=
  [ TransformTaskConfig.mk
      "pjsk"
      ("https://raw.githubusercontent.com/TheOriginalAyaka/sekai-stickers"
       ++ "/refs/heads/main/src/characters.json")
      ("https://raw.githubusercontent.com/TheOriginalAyaka/sekai-stickers"
       ++ "/refs/heads/main/public/img");
    TransformTaskConfig.mk
      "arcaea"
      ("https://raw.githubusercontent.com/Rosemoe/arcaea-stickers"
       ++ "/refs/heads/main/src/characters.json")
      ("https://raw.githubusercontent.com/Rosemoe/arcaea-stickers"
       ++ "/refs/heads/main/public/img") ].

(** What [transform_task] does for one configuration, around the job. *)
Inductive task_event `{Externals} : Type :=
| TaskAdded (name : string)                 (* progress.add_task(cfg.name, ...) *)
| JobEvent (e : event)                      (* the job, its callbacks on the bar *)
| TracebackPrinted (e : exn)                (* traceback.print_exc() *)
| TaskError (description : string)          (* progress.update(.., description=..) *)
| TaskStopped.                              (* progress.stop_task(task_id) *)

(** [transform_task(cfg)]: the job of the configuration, run in the world
    it finds at its URLs and target directory. An exception is printed,
    shown on the bar and raised again; only a job that returns stops its
    task. *)
Definition transform_task `{Externals} (cfg : TransformTaskConfig.t) (w : World)
  : list task_event * result unit :=
  let '(t, r) := run (transform_sekai_like w) in
  let log := TaskAdded (TransformTaskConfig.name cfg) :: map JobEvent t in
  match r with
  | inl e =>
      ((log ++ [TracebackPrinted e; TaskError (TransformTaskConfig.name cfg ++ ": Error")])%list,
       raise e)
  | inr _ => ((log ++ [TaskStopped])%list, ok tt)
  end.

(** [_main]: every configured task is run to its end, exceptions gathered
    as values; the status is 1 when any task raised and 0 otherwise. The
    tasks work on different directories, so each keeps its own log. *)
Definition _main `{Externals} (world_of : TransformTaskConfig.t -> World)
  : list (list task_event) * Z :=
  let outcomes := map (fun cfg => transform_task cfg (world_of cfg)) task_configs in
  let excs := map snd outcomes in
  (map fst outcomes,
   if existsb (fun r => match r with inl _ => true | inr _ => false end) excs
   then 1 else 0).

(** * Vocabulary of the properties *)

(** The 256 characters. *)
Definition all_ascii : list ascii := map ascii_of_nat (seq 0 256).

(** The value of a hexadecimal digit, [0] for any other character. *)
Definition hv (c : ascii) : Z :=
  match hex_value c with Some d => d | None => 0 end.

(** The byte two hexadecimal digits write. *)
Definition byte_of (hi lo : ascii) : Z := 16 * hv hi + hv lo.

(** The count of digits of a colour: its length without the optional [#]. *)
Definition digit_count (color : string) : nat :=
  String.length (removeprefix "#" color).

Definition valid_digit_count (n : nat) : bool :=
  (Nat.eqb n 3 || Nat.eqb n 4 || Nat.eqb n 6 || Nat.eqb n 8)%bool.

(** Every character is one of [0-9], [a-f], [A-F]. *)
Fixpoint hex_digits (s : string) : bool :=
  match s with
  | EmptyString => true
  | String c s' => is_hex c && hex_digits s'
  end.


(** The upper-case hexadecimal digit of [n] in [0, 15]. *)
Definition hex_digit_of (n : Z) : ascii :=
  if n <? 10 then ascii_of_N (Z.to_N (48 + n)) else ascii_of_N (Z.to_N (55 + n)).

(** A byte as two hexadecimal digits. *)
Definition format_byte (n : Z) : string :=
  String (hex_digit_of (n / 16)) (String (hex_digit_of (n mod 16)) "").

(** The formatter of the specification's idempotence property, which is
    not part of the source: the red, green and blue channels of a tuple as
    six hexadecimal digits, the alpha channel left out. *)
Definition spec_format_hex6 (t : RGBAColorTuple) : string :=
  match t with
  | r :: g :: b :: _ => format_byte r ++ format_byte g ++ format_byte b
  | _ => ""
  end.

(** Three-way comparison of lists of strings, first difference first. *)
Fixpoint list_compare (a b : list string) : comparison :=
  match a, b with
  | [], [] => Eq
  | [], _ :: _ => Lt
  | _ :: _, [] => Gt
  | x :: a', y :: b' =>
      match String.compare x y with
      | Eq => list_compare a' b'
      | ne => ne
      end
  end.

(** [a <= b] on segment lists: [b < a] does not hold. *)
Definition segments_le (a b : list string) : Prop := list_lt b a = false.

(** [a] may stand before [b] in a list sorted by [key] under [lt]. *)
Definition key_le {A K} (lt : K -> K -> bool) (key : A -> K) (a b : A) : Prop :=
  lt (key b) (key a) = false.

(** [d.keys()]. *)
Definition keys (d : ChecksumDict) : list string := map fst d.

(** The keys stand in the order of their path segments. *)
Definition sorted_by_segments (d : ChecksumDict) : Prop :=
  StronglySorted (fun a b => segments_le (split_on "/" a) (split_on "/" b)) (keys d).

(** An event that writes neither the manifest nor the checksum file. *)
Definition quiet `{Externals} (e : event) : Prop :=
  writes_manifest e = false /\ writes_checksum e = false.

(** The job extends the trace, and only by events of [P]. *)
Definition emits_only `{Externals} {A} (P : event -> Prop) (j : job A) : Prop :=
  forall t, exists evs, fst (j t) = (t ++ evs)%list /\ Forall P evs.

(** Download task [i] receives a body within its retry budget. *)
Definition download_succeeds `{Externals} (w : World) (i : nat) : Prop :=
  exists k body, (k <= retries)%nat /\ asset_response w i k = Some body.

(** Download task [i] exhausts its retry budget: no attempt answers. *)
Definition download_exhausted `{Externals} (w : World) (i : nat) : Prop :=
  forall k, (k <= retries)%nat -> asset_response w i k = None.

(** Every font of the list has a file to take the checksum of. *)
Definition fonts_present `{Externals} (w : World) (fonts : list ExternalFont) : Prop :=
  forall f, In f fonts -> font_file_checksum w (font_path f) <> None.

(** ** Sample inputs

    A stand-in for the imports and a few characters, to run the embedding
    on concrete inputs. *)

Definition sample_externals : Externals :=
  {| StickerPackConfig := unit;
     StickerPackConfig_default := tt;
     StickerGridSetting := unit;
     StickerGridSetting_default := tt;
     SampleSticker := unit;
     ExternalFont := string;
     font_path := fun p => p;
     URL_name := fun s => last (split_on "/" s) "";
     calc_checksum := fun content => string_of_list_byte content;
     retries := 3 |}.

Definition sample_text (r : float) : CharacterDefaultText.t :=
  {| CharacterDefaultText.text := "Wonderhoy";
     CharacterDefaultText.x := 148;
     CharacterDefaultText.y := 58;
     CharacterDefaultText.r := r;
     CharacterDefaultText.s := 47 |}.

Definition ann : Character :=
  Sekai {| SekaiCharacter.id := "1";
           SekaiCharacter.name := "Ann";
           SekaiCharacter.character := "ann";
           SekaiCharacter.img := "a.png";
           SekaiCharacter.color := "#FF0000";
           SekaiCharacter.default_text := sample_text 10 |}.

Definition ann2 : Character :=
  Sekai {| SekaiCharacter.id := "2";
           SekaiCharacter.name := "Ann 02";
           SekaiCharacter.character := "ann";
           SekaiCharacter.img := "ann/a2.png";
           SekaiCharacter.color := "#FF0000";
           SekaiCharacter.default_text := sample_text (-2) |}.

Definition bob : Character :=
  Sekai {| SekaiCharacter.id := "3";
           SekaiCharacter.name := "Bob";
           SekaiCharacter.character := "bob";
           SekaiCharacter.img := "b.png";
           SekaiCharacter.color := "F00";
           SekaiCharacter.default_text := sample_text 0 |}.

Definition hikari : Character :=
  Arcaea {| ArcaeaCharacter.id := "4";
            ArcaeaCharacter.name := "Hikari";
            ArcaeaCharacter.character := "hikari";
            ArcaeaCharacter.img := "hikari/h.png";
            ArcaeaCharacter.fill_color := "#ffffff";
            ArcaeaCharacter.stroke_color := "#57c8e6";
            ArcaeaCharacter.default_text := sample_text 1 |}.

Definition sample_manifest : @StickerPackManifest.t sample_externals :=
  @StickerPackManifest.mk sample_externals
    3 "PJSK" "stickers" tt StickerParamsOptional.unset tt None
    ["fonts/a.ttf"; "fonts/b.ttf"] [].

(** A world where every request answers and the fonts are on disk. *)
Definition sample_world : @World sample_externals :=
  @Build_World sample_externals
    (Some (ok sample_manifest))
    (ok [bob; ann])
    (fun i k => Some [Byte.x30; Byte.x31])
    (fun p => Some "font")
    [1; 0]%nat.

(** A world where the second download never answers. *)
Definition failing_world : @World sample_externals :=
  @Build_World sample_externals
    None
    (ok [bob; ann])
    (fun i k => if Nat.eqb i 1 then None else Some [Byte.x30; Byte.x31])
    (fun p => None)
    [0; 1]%nat.

(** ** Vocabulary of the further properties *)

(** [str.lower] on ASCII text, to speak about the case of an input. *)
Definition lower_ascii (c : ascii) : ascii :=
  let n := N_of_ascii c in
  if (65 <=? n)%N && (n <=? 90)%N then ascii_of_N (n + 32) else c.

Fixpoint lower (s : string) : string :=
  match s with
  | EmptyString => EmptyString
  | String c s' => String (lower_ascii c) (lower s')
  end.

(** The job's effect does not depend on the trace it starts from. *)
Definition framed `{Externals} {A} (j : job A) : Prop :=
  forall t, j t = ((t ++ fst (j []))%list, snd (j [])).

(** One attempt of download task [i], without its effects: the body it
    receives and the path it would write it to. *)
Definition attempt `{Externals} (w : World) (i : nat) (char : Character) (k : nat)
  : result (string * list Byte.byte) :=
  match asset_response w i k with
  | Some body => (p <- to_local_path char ;; ok (p, body))%result
  | None => raise DownloadFailed
  end.

(** The first attempt from [k] on that returns, within the budget; the
    last failure when none does. *)
Fixpoint retried {A} (budget : nat) (op : nat -> result A) (k : nat) : result A :=
  match op k with
  | inr a => inr a
  | inl e =>
      match budget with
      | O => inl e
      | S budget' => retried budget' op (S k)
      end
  end.

(** What download task [i] comes to. *)
Definition download_outcome `{Externals} (w : World) (i : nat) (char : Character)
  : result (string * list Byte.byte) :=
  retried retries (attempt w i char) O.

(** The outcomes of the tasks of a character list, numbered from [s]. *)
Fixpoint download_outcomes `{Externals} (w : World) (s : nat) (chars : Characters)
  : list (result (string * list Byte.byte)) :=
  match chars with
  | [] => []
  | c :: chars' => download_outcome w s c :: download_outcomes w (S s) chars'
  end.

(** The values of a list of outcomes when none is an exception. *)
Fixpoint all_ok {A} (l : list (result A)) : option (list A) :=
  match l with
  | [] => Some []
  | inl _ :: _ => None
  | inr a :: l' =>
      match all_ok l' with
      | Some l'' => Some (a :: l'')
      | None => None
      end
  end.

(** The two events of a finished download. *)
Definition asset_events `{Externals} (item : string * list Byte.byte) : list event :=
  [WriteAsset (fst item) (snd item);
   DownloadFinished (fst item) (calc_checksum (snd item))].

(** The checksum entry of a finished download. *)
Definition checksum_item `{Externals} (item : string * list Byte.byte)
  : string * string :=
  (fst item, calc_checksum (snd item)).

(** [d.get(k)]. *)
Fixpoint dict_get (d : ChecksumDict) (k : string) : option string :=
  match d with
  | [] => None
  | (k', v) :: d' => if String.eqb k' k then Some v else dict_get d' k
  end.

(** The font loop without the trace. *)
Fixpoint merged_fonts `{Externals} (w : World) (fonts : list ExternalFont)
    (checksum : ChecksumDict) : result ChecksumDict :=
  match fonts with
  | [] => ok checksum
  | f :: fonts' =>
      match font_file_checksum w (font_path f) with
      | Some h => merged_fonts w fonts' (dict_set checksum (font_path f) h)
      | None => raise (MissingFontFile (font_path f))
      end
  end.

(** The fonts of the prior manifest, none without one. *)
Definition prior_fonts `{Externals} (orig : option StickerPackManifest.t)
  : list ExternalFont :=
  match orig with
  | Some m => StickerPackManifest.external_fonts m
  | None => []
  end.

(** A character the transformer can turn into a sticker: its category is
    not empty and its colours normalise. *)
Definition char_ok (char : Character) : Prop :=
  char_character char <> ""
  /\ match char with
     | Sekai c => exists t, web_hex_to_color_tuple (SekaiCharacter.color c) = ok t
     | Arcaea c =>
         (exists t, web_hex_to_color_tuple (ArcaeaCharacter.fill_color c) = ok t)
         /\ (exists t, web_hex_to_color_tuple (ArcaeaCharacter.stroke_color c) = ok t)
     end.

(** The events of a trace that write the manifest or the checksum file. *)
Definition file_writes `{Externals} (t : list event) : list event :=
  filter (fun e => writes_manifest e || writes_checksum e) t.

(** The events of the [i]-th of the finished downloads. *)
Definition asset_events_at `{Externals} (items : list (string * list Byte.byte))
    (i : nat) : list event :=
  match nth_error items i with
  | Some item => asset_events item
  | None => []
  end.

(** Two worlds that differ at most in the order the scheduler finishes the
    downloads. *)
Definition same_but_schedule `{Externals} (w1 w2 : World) : Prop :=
  manifest_file w1 = manifest_file w2
  /\ characters_json w1 = characters_json w2
  /\ (forall i k, asset_response w1 i k = asset_response w2 i k)
  /\ (forall p, font_file_checksum w1 p = font_file_checksum w2 p).

(** A world where the first two attempts of every download fail. *)
Definition flaky_world : @World sample_externals :=
  @Build_World sample_externals
    (Some (ok sample_manifest))
    (ok [bob; ann])
    (fun i k => if Nat.ltb k 2 then None else Some [Byte.x30; Byte.x31])
    (fun p => Some "font")
    [1; 0]%nat.

(** The sample world under another schedule. *)
Definition sample_world_in_order : @World sample_externals :=
  @Build_World sample_externals
    (Some (ok sample_manifest))
    (ok [bob; ann])
    (fun i k => Some [Byte.x30; Byte.x31])
    (fun p => Some "font")
    [0; 1]%nat.

(** A world whose source has a colour that does not normalise. *)
Definition bad_colour_world : @World sample_externals :=
  @Build_World sample_externals
    None
    (ok [ann;
         Sekai (SekaiCharacter.mk "5" "Cat" "cat" "c.png" "#12345" (sample_text 0))])
    (fun i k => Some [Byte.x30])
    (fun p => None)
    []%nat.

(** A world whose source cannot be fetched. *)
Definition offline_world : @World sample_externals :=
  @Build_World sample_externals
    (Some (ok sample_manifest))
    (raise FetchFailed)
    (fun i k => Some [Byte.x30])
    (fun p => Some "font")
    []%nat.

(** * Properties *)

(** ** The normaliser on examples *)

Example web_hex_rgb : web_hex_to_color_tuple "#f00" = ok [255; 0; 0; 255].
Proof. reflexivity. Qed.
Example web_hex_argb4 : web_hex_to_color_tuple "1234" = ok [34; 51; 68; 17].
Proof. reflexivity. Qed.
Example web_hex_rrggbb : web_hex_to_color_tuple "#FF0000" = ok [255; 0; 0; 255].
Proof. reflexivity. Qed.
Example web_hex_argb8 : web_hex_to_color_tuple "80ff0001" = ok [255; 0; 1; 128].
Proof. reflexivity. Qed.
Example web_hex_seven : web_hex_to_color_tuple "1234567" = raise InvalidColorFormat.
Proof. reflexivity. Qed.
Example web_hex_signed : web_hex_to_color_tuple "-1-1-1" = ok [-1; -1; -1; 255].
Proof. reflexivity. Qed.

(** ** Characters, by enumeration *)


Lemma all_ascii_complete (c : ascii) : In c all_ascii.
Proof.
  unfold all_ascii. rewrite <- (ascii_nat_embedding c).
  apply in_map, in_seq. pose proof (nat_ascii_bounded c). lia.
Qed.

(** A decidable property of characters holds of all once it is checked on
    the 256 of them. *)
Lemma forall_ascii (P : ascii -> bool) :
  forallb P all_ascii = true -> forall c, P c = true.
Proof.
  intros H c. rewrite forallb_forall in H. apply H, all_ascii_complete.
Qed.

Lemma forall_ascii2 (P : ascii -> ascii -> bool) :
  forallb (fun a => forallb (P a) all_ascii) all_ascii = true ->
  forall a b, P a b = true.
Proof.
  intros H a b. apply forall_ascii. revert a. apply forall_ascii. exact H.
Qed.


Lemma hv_range (c : ascii) : 0 <= hv c <= 15.
Proof.
  assert (H : ((0 <=? hv c) && (hv c <=? 15))%bool = true).
  { revert c. apply forall_ascii. vm_compute. reflexivity. }
  apply andb_true_iff in H. lia.
Qed.

Lemma upper_ascii_hex (c : ascii) :
  is_hex c = true ->
  is_hex (upper_ascii c) = true /\ hv (upper_ascii c) = hv c /\
  upper_ascii (upper_ascii c) = upper_ascii c.
Proof.
  assert (H : implb (is_hex c)
                (is_hex (upper_ascii c) && (hv (upper_ascii c) =? hv c)
                 && Ascii.eqb (upper_ascii (upper_ascii c)) (upper_ascii c))%bool = true).
  { revert c. apply forall_ascii. vm_compute. reflexivity. }
  intros Hc. rewrite Hc in H. simpl in H.
  apply andb_true_iff in H. destruct H as [H H3].
  apply andb_true_iff in H. destruct H as [H1 H2].
  repeat split; [assumption | lia | now apply Ascii.eqb_eq].
Qed.


Lemma is_hex_not_hash (c : ascii) : is_hex c = true -> c <> "#"%char.
Proof. intros H ->. discriminate H. Qed.

(** Two hexadecimal digits parse to the byte they write. *)
Lemma int16_pair (a b : ascii) :
  is_hex a = true -> is_hex b = true ->
  int16 (String a (String b "")) = ok (16 * hv a + hv b).
Proof.
  assert (H : implb (is_hex a && is_hex b)
                match int16 (String a (String b "")) with
                | inr v => v =? 16 * hv a + hv b
                | inl _ => false
                end = true).
  { revert a b. apply forall_ascii2. vm_compute. reflexivity. }
  intros Ha Hb. rewrite Ha, Hb in H. simpl in H.
  destruct (int16 _) as [e | v]; [discriminate |].
  apply Z.eqb_eq in H. now subst.
Qed.

(** The parser raises nothing but its own error. *)
Lemma int16_raises (s : string) (e : exn) :
  int16 s = raise e -> e = InvalidLiteral s.
Proof.
  unfold int16, raise.
  destruct (skip_space s) as [| c r].
  - simpl. intros H. now inversion H.
  - intros H.
    repeat match type of H with
           | context [match ?x with _ => _ end] => destruct x
           | context [if ?x then _ else _] => destruct x
           end; try discriminate; now inversion H.
Qed.

Lemma int16_FF : int16 "FF" = ok 255.
Proof. reflexivity. Qed.

(** Replace the upper-cased digit [upper_ascii d] by a fresh digit of the
    same value. *)
Ltac upper_digit d :=
  let u := fresh "u" in
  let Hu := fresh "Hu" in
  let Hv := fresh "Hv" in
  let Hh := fresh "Hh" in
  match goal with
  | H : is_hex d = true |- _ =>
      destruct (upper_ascii_hex d H) as (Hu & Hv & _);
      pose proof (is_hex_not_hash _ Hu) as Hh;
      rewrite <- Hv; clear Hv;
      generalize dependent (upper_ascii d); intros u Hu Hh
  end.

(** Run the normaliser on a string whose digits are named. *)
Ltac run_web_hex :=
  unfold byte_of, web_hex_to_color_tuple; cbn [upper];
  change (upper_ascii "#") with "#"%char;
  repeat match goal with
         | H : is_hex ?d = true |- context [upper_ascii ?d] => upper_digit d
         end;
  unfold removeprefix; cbn [prefix];
  repeat match goal with
         | |- context [ascii_dec ?a ?b] =>
             destruct (ascii_dec a b); [congruence |]
         end;
  cbn -[int16 Z.mul Z.add];
  rewrite ?int16_FF, ?int16_pair by assumption;
  cbn -[Z.mul Z.add]; unfold ok; f_equal;
  repeat (apply f_equal2; [lia |]); reflexivity.

Section Digits.
Variables d1 d2 d3 d4 d5 d6 d7 d8 : ascii.
Hypothesis H1 : is_hex d1 = true.
Hypothesis H2 : is_hex d2 = true.
Hypothesis H3 : is_hex d3 = true.
Hypothesis H4 : is_hex d4 = true.
Hypothesis H5 : is_hex d5 = true.
Hypothesis H6 : is_hex d6 = true.
Hypothesis H7 : is_hex d7 = true.
Hypothesis H8 : is_hex d8 = true.

Lemma web_hex_3 :
  web_hex_to_color_tuple (String d1 (String d2 (String d3 "")))
  = ok [byte_of d1 d1; byte_of d2 d2; byte_of d3 d3; 255].
Proof. clear H4 H5 H6 H7 H8. run_web_hex. Qed.

Lemma web_hex_3_hash :
  web_hex_to_color_tuple (String "#" (String d1 (String d2 (String d3 ""))))
  = ok [byte_of d1 d1; byte_of d2 d2; byte_of d3 d3; 255].
Proof. clear H4 H5 H6 H7 H8. run_web_hex. Qed.

Lemma web_hex_4 :
  web_hex_to_color_tuple (String d1 (String d2 (String d3 (String d4 ""))))
  = ok [byte_of d2 d2; byte_of d3 d3; byte_of d4 d4; byte_of d1 d1].
Proof. clear H5 H6 H7 H8. run_web_hex. Qed.

Lemma web_hex_4_hash :
  web_hex_to_color_tuple
    (String "#" (String d1 (String d2 (String d3 (String d4 "")))))
  = ok [byte_of d2 d2; byte_of d3 d3; byte_of d4 d4; byte_of d1 d1].
Proof. clear H5 H6 H7 H8. run_web_hex. Qed.

Lemma web_hex_6 :
  web_hex_to_color_tuple
    (String d1 (String d2 (String d3 (String d4 (String d5 (String d6 ""))))))
  = ok [byte_of d1 d2; byte_of d3 d4; byte_of d5 d6; 255].
Proof. clear H7 H8. run_web_hex. Qed.

Lemma web_hex_6_hash :
  web_hex_to_color_tuple
    (String "#"
       (String d1 (String d2 (String d3 (String d4 (String d5 (String d6 "")))))))
  = ok [byte_of d1 d2; byte_of d3 d4; byte_of d5 d6; 255].
Proof. clear H7 H8. run_web_hex. Qed.

Lemma web_hex_8 :
  web_hex_to_color_tuple
    (String d1 (String d2 (String d3 (String d4 (String d5 (String d6
       (String d7 (String d8 ""))))))))
  = ok [byte_of d3 d4; byte_of d5 d6; byte_of d7 d8; byte_of d1 d2].
Proof. run_web_hex. Qed.

Lemma web_hex_8_hash :
  web_hex_to_color_tuple
    (String "#"
       (String d1 (String d2 (String d3 (String d4 (String d5 (String d6
          (String d7 (String d8 "")))))))))
  = ok [byte_of d3 d4; byte_of d5 d6; byte_of d7 d8; byte_of d1 d2].
Proof. run_web_hex. Qed.
End Digits.

(** ** Lengths and the leading [#] *)


Lemma substring_all (s : string) : substring 0 (String.length s) s = s.
Proof. induction s; simpl; congruence. Qed.

Lemma slice_from_1 (c : ascii) (s : string) : slice_from 1 (String c s) = s.
Proof.
  unfold slice_from. simpl. rewrite Nat.sub_0_r. apply substring_all.
Qed.

Lemma removeprefix_hash_cons (c : ascii) (s : string) :
  removeprefix "#" (String c s) = if Ascii.eqb c "#" then s else String c s.
Proof.
  unfold removeprefix. cbn [prefix String.length].
  destruct (ascii_dec "#" c) as [<- | Hne].
  - assert (Hp : prefix "" s = true) by (destruct s; reflexivity).
    rewrite Hp, slice_from_1. reflexivity.
  - destruct (Ascii.eqb_spec c "#"); [congruence | reflexivity].
Qed.






Lemma rbind_ok {A B} (a : A) (k : A -> result B) : rbind (ok a) k = k a.
Proof. reflexivity. Qed.

Lemma mapM_int16_raises (f : nat -> string) (l : list nat) (e : exn) :
  mapM (fun i => int16 (f i)) l = raise e -> exists s, e = InvalidLiteral s.
Proof.
  induction l as [| i l IH]; simpl; [discriminate |].
  destruct (int16 (f i)) as [e' | v] eqn:Hi; simpl.
  - intros H. inversion H; subst. apply int16_raises in Hi. eauto.
  - destruct (mapM _ l) as [e' | vs]; simpl; [| discriminate].
    intros H. inversion H; subst. now apply IH.
Qed.


Lemma byte_of_range (hi lo : ascii) : 0 <= byte_of hi lo <= 255.
Proof.
  unfold byte_of. pose proof (hv_range hi). pose proof (hv_range lo). lia.
Qed.

(** Every string of 3, 4, 6 or 8 hexadecimal digits normalises to four
    bytes, with or without the [#]; 3 and 6 digits give full alpha. *)
Lemma web_hex_valid (s : string) :
  hex_digits s = true -> valid_digit_count (String.length s) = true ->
  exists r g b a,
    web_hex_to_color_tuple s = ok [r; g; b; a]
    /\ web_hex_to_color_tuple (String "#" s) = ok [r; g; b; a]
    /\ (0 <= r <= 255 /\ 0 <= g <= 255 /\ 0 <= b <= 255 /\ 0 <= a <= 255)
    /\ (String.length s = 3%nat \/ String.length s = 6%nat -> a = 255).
Proof.
  intros Hd Hl.
  destruct s as [| d1 [| d2 [| d3 [| d4 [| d5 [| d6 [| d7 [| d8 [| d9 s]]]]]]]]];
    try discriminate Hl;
    cbn [hex_digits] in Hd;
    repeat match type of Hd with
           | (_ && _)%bool = true => apply andb_true_iff in Hd; destruct Hd as [? Hd]
           end.
  - rewrite web_hex_3, web_hex_3_hash by assumption.
    do 4 eexists. repeat split; try apply byte_of_range; lia.
  - rewrite web_hex_4, web_hex_4_hash by assumption.
    do 4 eexists. repeat split; try apply byte_of_range.
    simpl. intros [E | E]; discriminate E.
  - rewrite web_hex_6, web_hex_6_hash by assumption.
    do 4 eexists. repeat split; try apply byte_of_range; lia.
  - rewrite web_hex_8, web_hex_8_hash by assumption.
    do 4 eexists. repeat split; try apply byte_of_range.
    simpl. intros [E | E]; discriminate E.
Qed.

(** The same for a colour as it is given, the [#] optional. *)
Lemma web_hex_valid_color (color : string) :
  hex_digits (removeprefix "#" color) = true ->
  valid_digit_count (digit_count color) = true ->
  exists r g b a,
    web_hex_to_color_tuple color = ok [r; g; b; a]
    /\ (0 <= r <= 255 /\ 0 <= g <= 255 /\ 0 <= b <= 255 /\ 0 <= a <= 255)
    /\ (digit_count color = 3%nat \/ digit_count color = 6%nat -> a = 255).
Proof.
  unfold digit_count. intros Hd Hl.
  destruct color as [| c s].
  { discriminate Hl. }
  rewrite removeprefix_hash_cons in *.
  destruct (Ascii.eqb_spec c "#") as [-> | Hne].
  - destruct (web_hex_valid s Hd Hl) as (r & g & b & a & _ & E & Hb & Ha).
    exists r, g, b, a. auto.
  - destruct (web_hex_valid _ Hd Hl) as (r & g & b & a & E & _ & Hb & Ha).
    exists r, g, b, a. auto.
Qed.

(** ** Formatting a tuple back *)




Lemma hex_digit_of_spec (n : Z) :
  0 <= n <= 15 -> is_hex (hex_digit_of n) = true /\ hv (hex_digit_of n) = n.
Proof.
  intros Hn.
  assert (H : In n (map Z.of_nat (seq 0 16))).
  { apply in_map_iff. exists (Z.to_nat n). split; [lia | apply in_seq; lia]. }
  simpl in H.
  repeat (destruct H as [<- | H]; [split; reflexivity |]).
  contradiction.
Qed.

Lemma format_byte_spec (n : Z) :
  0 <= n <= 255 ->
  exists d1 d2, format_byte n = String d1 (String d2 "")
    /\ is_hex d1 = true /\ is_hex d2 = true /\ 16 * hv d1 + hv d2 = n.
Proof.
  intros Hn. exists (hex_digit_of (n / 16)), (hex_digit_of (n mod 16)).
  assert (Hq : 0 <= n / 16 <= 15).
  { assert (n / 16 < 16) by (apply Z.div_lt_upper_bound; lia).
    assert (0 <= n / 16) by (apply Z.div_pos; lia). lia. }
  assert (Hr : 0 <= n mod 16 <= 15).
  { pose proof (Z.mod_pos_bound n 16). lia. }
  destruct (hex_digit_of_spec _ Hq) as [Hq1 Hq2].
  destruct (hex_digit_of_spec _ Hr) as [Hr1 Hr2].
  repeat split; try assumption.
  rewrite Hq2, Hr2. symmetry. apply Z.div_mod. lia.
Qed.

(** Normalising the six digits of a tuple of bytes gives its three colour
    channels back, with full alpha. *)
Lemma renormalise_hex6 (r g b a : Z) :
  0 <= r <= 255 -> 0 <= g <= 255 -> 0 <= b <= 255 ->
  web_hex_to_color_tuple (spec_format_hex6 [r; g; b; a]) = ok [r; g; b; 255].
Proof.
  intros Hr Hg Hb.
  destruct (format_byte_spec r Hr) as (r1 & r2 & Er & ? & ? & Vr).
  destruct (format_byte_spec g Hg) as (g1 & g2 & Eg & ? & ? & Vg).
  destruct (format_byte_spec b Hb) as (b1 & b2 & Eb & ? & ? & Vb).
  unfold spec_format_hex6. rewrite Er, Eg, Eb. cbn [append].
  rewrite web_hex_6 by assumption. unfold byte_of. now rewrite Vr, Vg, Vb.
Qed.

(** ** Paths *)

Lemma append_inj_l (a b c : string) : a ++ b = a ++ c -> b = c.
Proof. induction a as [| x a IH]; simpl; intros H; [assumption | inversion H; auto]. Qed.

Lemma prefix_append (a b : string) : prefix a (a ++ b) = true.
Proof.
  induction a as [| x a IH]; simpl.
  - destruct b; reflexivity.
  - destruct (ascii_dec x x); [assumption | congruence].
Qed.

Lemma normalize_character_name_cons (c : ascii) (rest : string) :
  normalize_character_name (String c rest) = ok (String (upper_ascii c) rest).
Proof.
  unfold normalize_character_name. cbn [str_getitem get rbind ok upper append].
  now rewrite slice_from_1.
Qed.

Lemma normalize_character_name_empty :
  normalize_character_name "" = raise StringIndexError.
Proof. reflexivity. Qed.

Lemma normalize_character_name_ok (name dir : string) :
  normalize_character_name name = ok dir ->
  exists c rest, name = String c rest /\ dir = String (upper_ascii c) rest.
Proof.
  destruct name as [| c rest]; [discriminate |].
  rewrite normalize_character_name_cons. intros H. inversion H. eauto.
Qed.

Lemma to_local_path_ok `{Externals} (char : Character) (p : string) :
  to_local_path char = ok p ->
  exists dir, normalize_character_name (char_character char) = ok dir
    /\ p = dir ++ "/" ++ URL_name (char_img char).
Proof.
  unfold to_local_path.
  destruct (normalize_character_name _) as [e | dir]; [discriminate |].
  simpl. intros H0. inversion H0. eauto.
Qed.

(** ** The transformer, step by step *)

Lemma mapM_nth {A B} (f : A -> result B) (l : list A) (l' : list B) :
  mapM f l = ok l' ->
  forall i a, nth_error l i = Some a ->
  exists b, nth_error l' i = Some b /\ f a = ok b.
Proof.
  revert l'. induction l as [| x l IH]; intros l' Hm i a Hi.
  - destruct i; discriminate.
  - simpl in Hm. destruct (f x) as [e | y] eqn:Hx; [discriminate |].
    destruct (mapM f l) as [e | ys]; [discriminate |].
    simpl in Hm. inversion Hm; subst.
    destruct i as [| i]; simpl in *.
    + inversion Hi; subst. eauto.
    + eauto.
Qed.

Lemma mapM_length {A B} (f : A -> result B) (l : list A) (l' : list B) :
  mapM f l = ok l' -> List.length l' = List.length l.
Proof.
  revert l'. induction l as [| x l IH]; intros l' Hm; simpl in Hm.
  - inversion Hm. reflexivity.
  - destruct (f x); [discriminate |]. destruct (mapM f l); [discriminate |].
    simpl in Hm. inversion Hm. simpl. f_equal. now apply IH.
Qed.

Lemma sticker_of_ok `{Externals} (char : Character) (st : StickerInfoOptionalParams.t) :
  sticker_of char = ok st ->
  StickerParamsOptional.text_rotate_degrees (StickerInfoOptionalParams.params st)
  = Some (degrees (CharacterDefaultText.r (char_default_text char) / 10)).
Proof.
  unfold sticker_of.
  destruct (normalize_character_name _); [discriminate |].
  destruct (to_local_path char); [discriminate |].
  cbn [rbind].
  destruct char as [c | c].
  - destruct (web_hex_to_color_tuple _); [discriminate |].
    cbn. intros H0. inversion H0. reflexivity.
  - destruct (web_hex_to_color_tuple _); [discriminate |].
    cbn [rbind].
    destruct (web_hex_to_color_tuple _); [discriminate |].
    cbn. intros H0. inversion H0. reflexivity.
Qed.

(** The sticker of a character never fails on a list index. *)
Lemma sticker_of_raises `{Externals} (char : Character) (e : exn) :
  sticker_of char = raise e -> e <> ListIndexError.
Proof.
  unfold sticker_of.
  destruct (normalize_character_name _) as [e0 | dir] eqn:Hn.
  { intros H0. inversion H0; subst.
    destruct (char_character char); [| now rewrite normalize_character_name_cons in Hn].
    inversion Hn. discriminate. }
  unfold to_local_path. rewrite Hn. cbn [rbind ok].
  assert (Hw : forall s e', web_hex_to_color_tuple s = raise e' -> e' <> ListIndexError).
  { intros s e' Hs ->.
    unfold web_hex_to_color_tuple in Hs.
    set (c := removeprefix "#" (upper s)) in Hs.
    repeat match type of Hs with
           | context [if ?b then _ else _] => destruct b
           end;
      try (unfold str_getitem in Hs; destruct (get 0 c); [| discriminate Hs]);
      try discriminate Hs;
      rewrite !rbind_ok in Hs;
      apply mapM_int16_raises in Hs; destruct Hs; discriminate. }
  destruct char as [c | c].
  - destruct (web_hex_to_color_tuple _) as [e1 | t] eqn:Ht.
    + intros H0. inversion H0; subst. eapply Hw; eassumption.
    + discriminate.
  - destruct (web_hex_to_color_tuple (ArcaeaCharacter.fill_color c)) as [e1 | t] eqn:Ht.
    + intros H0. inversion H0; subst. eapply Hw; eassumption.
    + cbn [rbind].
      destruct (web_hex_to_color_tuple (ArcaeaCharacter.stroke_color c)) as [e2 | t2] eqn:Ht2.
      * intros H0. inversion H0; subst. eapply Hw; eassumption.
      * discriminate.
Qed.

Lemma mapM_raises {A B} (f : A -> result B) (l : list A) (e : exn) :
  mapM f l = raise e -> exists a, In a l /\ f a = raise e.
Proof.
  induction l as [| x l IH]; simpl; [discriminate |].
  destruct (f x) as [e' | y] eqn:Hx.
  - intros H. inversion H; subst. eauto.
  - destruct (mapM f l) as [e' | ys]; [| discriminate].
    intros H. inversion H; subst. destruct IH as (a & Ha & Hf); eauto.
Qed.

(** What a successful transformation is made of. *)
Lemma transform_manifest_ok `{Externals} (chars : Characters)
    (base : option StickerPackManifest.t) (m : StickerPackManifest.t) :
  transform_manifest chars base = ok m ->
  exists params stickers,
    match base with
    | Some b => ok (StickerPackManifest.default_sticker_params b)
    | None => fresh_default_sticker_params chars
    end = ok params
    /\ mapM sticker_of chars = ok stickers
    /\ StickerPackManifest.default_sticker_params m = params
    /\ StickerPackManifest.stickers m = stickers
    /\ StickerPackManifest.version m
       = match base with Some b => StickerPackManifest.version b | None => 1 end
    /\ StickerPackManifest.external_fonts m
       = match base with
         | Some b => StickerPackManifest.external_fonts b
         | None => []
         end.
Proof.
  unfold transform_manifest.
  destruct (match base with Some _ => _ | None => _ end) as [e | params];
    [discriminate |].
  destruct (mapM sticker_of chars) as [e | stickers]; [discriminate |].
  cbn [rbind]. intros H0. inversion H0; subst. 
  exists params, stickers. cbn. repeat split; reflexivity.
Qed.

(** ** The order on path segments *)


Lemma ascii_compare_refl (a : ascii) : Ascii.compare a a = Eq.
Proof. apply N.compare_refl. Qed.

Lemma ascii_compare_trans (a b c : ascii) :
  Ascii.compare a b = Lt -> Ascii.compare b c = Lt -> Ascii.compare a c = Lt.
Proof. unfold Ascii.compare. rewrite !N.compare_lt_iff. lia. Qed.

Lemma string_compare_refl (s : string) : String.compare s s = Eq.
Proof. induction s; simpl; [reflexivity | now rewrite ascii_compare_refl]. Qed.

Lemma string_compare_trans (a b c : string) :
  String.compare a b = Lt -> String.compare b c = Lt -> String.compare a c = Lt.
Proof.
  revert b c. induction a as [| x a IH]; intros [| y b] [| z c]; simpl;
    try discriminate; try reflexivity.
  destruct (Ascii.compare x y) eqn:Exy; try discriminate.
  - apply Ascii.compare_eq_iff in Exy. subst y.
    destruct (Ascii.compare x z); try discriminate; [apply IH | reflexivity].
  - intros _.
    destruct (Ascii.compare y z) eqn:Eyz; try discriminate.
    + apply Ascii.compare_eq_iff in Eyz. subst z. now rewrite Exy.
    + now rewrite (ascii_compare_trans _ _ _ Exy Eyz).
Qed.

Lemma string_eqb_compare (x y : string) :
  String.eqb x y = match String.compare x y with Eq => true | _ => false end.
Proof.
  destruct (String.eqb_spec x y) as [-> | Hne].
  - now rewrite string_compare_refl.
  - destruct (String.compare x y) eqn:E; try reflexivity.
    apply String.compare_eq_iff in E. contradiction.
Qed.

Lemma list_lt_compare (a b : list string) :
  list_lt a b = match list_compare a b with Lt => true | _ => false end.
Proof.
  revert b. induction a as [| x a IH]; intros [| y b]; simpl; try reflexivity.
  rewrite string_eqb_compare. unfold String.ltb.
  destruct (String.compare x y); auto.
Qed.

Lemma list_compare_refl (a : list string) : list_compare a a = Eq.
Proof. induction a; simpl; [reflexivity | now rewrite string_compare_refl]. Qed.

Lemma list_compare_eq (a b : list string) : list_compare a b = Eq -> a = b.
Proof.
  revert b. induction a as [| x a IH]; intros [| y b]; simpl; try discriminate;
    [reflexivity |].
  destruct (String.compare x y) eqn:E; try discriminate.
  apply String.compare_eq_iff in E. intros H. f_equal; auto.
Qed.

Lemma list_compare_antisym (a b : list string) :
  list_compare a b = CompOpp (list_compare b a).
Proof.
  revert b. induction a as [| x a IH]; intros [| y b]; simpl; try reflexivity.
  rewrite (String.compare_antisym x y).
  destruct (String.compare y x); simpl; auto.
Qed.

Lemma list_compare_trans (a b c : list string) :
  list_compare a b = Lt -> list_compare b c = Lt -> list_compare a c = Lt.
Proof.
  revert b c. induction a as [| x a IH]; intros [| y b] [| z c]; simpl;
    try discriminate; try reflexivity.
  destruct (String.compare x y) eqn:Exy; try discriminate.
  - apply String.compare_eq_iff in Exy. subst y.
    destruct (String.compare x z); try discriminate; [apply IH | reflexivity].
  - intros _.
    destruct (String.compare y z) eqn:Eyz; try discriminate.
    + apply String.compare_eq_iff in Eyz. subst z. now rewrite Exy.
    + now rewrite (string_compare_trans _ _ _ Exy Eyz).
Qed.


Lemma list_lt_asym (a b : list string) : list_lt a b = true -> list_lt b a = false.
Proof.
  rewrite !list_lt_compare, (list_compare_antisym b a).
  destruct (list_compare a b); simpl; congruence.
Qed.

Lemma segments_le_trans (a b c : list string) :
  segments_le a b -> segments_le b c -> segments_le a c.
Proof.
  unfold segments_le. rewrite !list_lt_compare.
  rewrite (list_compare_antisym b a), (list_compare_antisym c b),
    (list_compare_antisym c a).
  destruct (list_compare a b) eqn:Eab; simpl; try discriminate; intros _.
  - apply list_compare_eq in Eab. subst b.
    destruct (list_compare a c); simpl; congruence.
  - destruct (list_compare b c) eqn:Ebc; simpl; try discriminate; intros _.
    + apply list_compare_eq in Ebc. subst c. now rewrite Eab.
    + now rewrite (list_compare_trans _ _ _ Eab Ebc).
Qed.

(** ** Sorting *)

Section Permuting.
Context {A K : Type} (lt : K -> K -> bool) (key : A -> K).

Lemma insert_by_perm (a : A) (l : list A) :
  Permutation (insert_by lt key a l) (a :: l).
Proof.
  induction l as [| b l IH]; simpl; [reflexivity |].
  destruct (lt (key a) (key b)); [reflexivity |].
  rewrite IH. apply perm_swap.
Qed.

Lemma sorted_by_acc_perm (l acc : list A) :
  Permutation (fold_left (fun acc a => insert_by lt key a acc) l acc) (acc ++ l).
Proof.
  revert acc. induction l as [| a l IH]; intros acc; simpl.
  - now rewrite app_nil_r.
  - rewrite IH, insert_by_perm. simpl. apply Permutation_middle.
Qed.

Lemma sorted_by_perm (l : list A) : Permutation (sorted_by lt key l) l.
Proof. apply (sorted_by_acc_perm l []). Qed.
End Permuting.

Section Sorting.
Context {A K : Type} (lt : K -> K -> bool) (key : A -> K).
Hypothesis lt_asym : forall a b, lt a b = true -> lt b a = false.
Hypothesis le_trans :
  forall a b c, lt b a = false -> lt c b = false -> lt c a = false.



Lemma insert_by_sorted (a : A) (l : list A) :
  StronglySorted (key_le lt key) l -> StronglySorted (key_le lt key) (insert_by lt key a l).
Proof.
  induction 1 as [| b l Hs IH Hb]; simpl.
  - repeat constructor.
  - destruct (lt (key a) (key b)) eqn:E.
    + constructor; [now constructor |].
      constructor; [now apply lt_asym |].
      rewrite Forall_forall in *. intros c Hc.
      unfold key_le in *. eapply le_trans; [| now apply Hb].
      now apply lt_asym.
    + constructor; [assumption |].
      rewrite (Forall_forall (key_le lt key b)).
      intros c Hc. apply (Permutation_in _ (insert_by_perm lt key a l)) in Hc.
      destruct Hc as [<- | Hc]; [exact E |].
      rewrite Forall_forall in Hb. now apply Hb.
Qed.

Lemma sorted_by_acc_sorted (l acc : list A) :
  StronglySorted (key_le lt key) acc ->
  StronglySorted (key_le lt key) (fold_left (fun acc a => insert_by lt key a acc) l acc).
Proof.
  revert acc. induction l as [| a l IH]; intros acc Hs; simpl; [assumption |].
  apply IH, insert_by_sorted, Hs.
Qed.

Lemma sorted_by_sorted (l : list A) : StronglySorted (key_le lt key) (sorted_by lt key l).
Proof. apply sorted_by_acc_sorted. constructor. Qed.
End Sorting.

(** ** Dictionaries *)


Lemma dict_set_keys (d : ChecksumDict) (k v : string) :
  keys (dict_set d k v) = if existsb (String.eqb k) (keys d) then keys d
                          else (keys d ++ [k])%list.
Proof.
  induction d as [| [k' v'] d IH]; simpl; [reflexivity |].
  rewrite (String.eqb_sym k k').
  destruct (String.eqb_spec k' k) as [-> | Hne]; simpl; [reflexivity |].
  rewrite IH. destruct (existsb _ _); reflexivity.
Qed.

Lemma dict_set_fresh (d : ChecksumDict) (k v : string) :
  ~ In k (keys d) -> dict_set d k v = (d ++ [(k, v)])%list.
Proof.
  induction d as [| [k' v'] d IH]; simpl; intros Hk; [reflexivity |].
  destruct (String.eqb_spec k' k) as [-> | Hne]; [tauto |].
  rewrite IH; tauto.
Qed.

Lemma dict_set_nodup (d : ChecksumDict) (k v : string) :
  NoDup (keys d) -> NoDup (keys (dict_set d k v)).
Proof.
  intros Hd. rewrite dict_set_keys.
  destruct (existsb (String.eqb k) (keys d)) eqn:E; [assumption |].
  apply NoDup_app; [assumption | repeat constructor; simpl; tauto |].
  intros x Hx [Hk | []]. subst x.
  assert (existsb (String.eqb k) (keys d) = true); [| congruence].
  apply existsb_exists. exists k. split; [assumption | apply String.eqb_refl].
Qed.

Lemma dict_of_items_acc_nodup (items : list (string * string)) (acc : ChecksumDict) :
  NoDup (keys acc) ->
  NoDup (keys (fold_left (fun d kv => dict_set d (fst kv) (snd kv)) items acc)).
Proof.
  revert acc. induction items as [| kv items IH]; intros acc Ha; simpl;
    [assumption |].
  apply IH, dict_set_nodup, Ha.
Qed.

Lemma dict_of_items_nodup (items : list (string * string)) :
  NoDup (keys (dict_of_items items)).
Proof. apply dict_of_items_acc_nodup. constructor. Qed.

(** Items with distinct keys make the dictionary that lists them. *)
Lemma dict_of_items_acc_id (items : list (string * string)) (acc : ChecksumDict) :
  NoDup (keys (acc ++ items)%list) ->
  fold_left (fun d kv => dict_set d (fst kv) (snd kv)) items acc
  = (acc ++ items)%list.
Proof.
  revert acc. induction items as [| [k v] items IH]; intros acc Hn; simpl.
  - now rewrite app_nil_r.
  - assert (Hk : ~ In k (keys acc)).
    { unfold keys in *. rewrite map_app in Hn. simpl in Hn.
      apply NoDup_remove_2 in Hn. rewrite in_app_iff in Hn. tauto. }
    rewrite (dict_set_fresh _ _ _ Hk), IH; rewrite <- app_assoc; [reflexivity |].
    exact Hn.
Qed.

Lemma dict_of_items_id (items : list (string * string)) :
  NoDup (keys items) -> dict_of_items items = items.
Proof. intros Hn. apply (dict_of_items_acc_id items []). exact Hn. Qed.


Lemma sort_checksum_unfold (d : ChecksumDict) :
  NoDup (keys d) -> sort_checksum d = sorted_by list_lt path_segments d.
Proof.
  intros Hn. unfold sort_checksum. apply dict_of_items_id.
  unfold keys. eapply Permutation_NoDup; [| exact Hn].
  apply Permutation_map. symmetry. apply sorted_by_perm.
Qed.

Lemma sort_checksum_sorted (d : ChecksumDict) :
  NoDup (keys d) -> sorted_by_segments (sort_checksum d) /\ Permutation (sort_checksum d) d.
Proof.
  intros Hn. rewrite (sort_checksum_unfold d Hn). split.
  - unfold sorted_by_segments, keys.
    pose proof (sorted_by_sorted list_lt path_segments list_lt_asym
                  (fun a b c => segments_le_trans a b c) d) as Hs.
    induction Hs as [| a l Hs IH Ha]; simpl; constructor; [assumption |].
    rewrite Forall_map. exact Ha.
  - apply sorted_by_perm.
Qed.

(** ** Jobs *)

Section Jobs.
Context `{Externals}.



Lemma emits_only_jret {A} (P : event -> Prop) (a : A) : emits_only P (jret a).
Proof. intros t. exists []. simpl. now rewrite app_nil_r. Qed.

Lemma emits_only_lift {A} (P : event -> Prop) (r : result A) : emits_only P (lift r).
Proof. intros t. exists []. simpl. now rewrite app_nil_r. Qed.

Lemma emits_only_emit (P : event -> Prop) (e : event) : P e -> emits_only P (emit e).
Proof. intros He t. exists [e]. simpl. auto. Qed.

Lemma emits_only_jbind {A B} (P : event -> Prop) (m : job A) (k : A -> job B) :
  emits_only P m -> (forall a, emits_only P (k a)) -> emits_only P (jbind m k).
Proof.
  intros Hm Hk t. unfold jbind.
  destruct (Hm t) as (evs & Et & Hevs).
  destruct (m t) as [t1 [e | a]]; simpl in Et; subst t1.
  - exists evs. auto.
  - destruct (Hk a (t ++ evs)%list) as (evs' & Et' & Hevs').
    exists (evs ++ evs')%list. rewrite Et', app_assoc. split; [reflexivity |].
    apply Forall_app. auto.
Qed.

Lemma emits_only_op_retry {A} (P : event -> Prop) (op : nat -> job A) :
  (forall k, emits_only P (op k)) ->
  forall budget k, emits_only P (op_retry budget op k).
Proof.
  intros Hop budget. induction budget as [| b IH]; intros k t; simpl.
  - destruct (Hop k t) as (evs & Et & Hevs).
    destruct (op k t) as [t1 [e | a]]; simpl in *; eauto.
  - destruct (Hop k t) as (evs & Et & Hevs).
    destruct (op k t) as [t1 [e | a]]; simpl in Et; subst t1; [| simpl; eauto].
    destruct (IH (S k) (t ++ evs)%list) as (evs' & Et' & Hevs').
    exists (evs ++ evs')%list. rewrite Et', app_assoc. split; [reflexivity |].
    apply Forall_app. auto.
Qed.

Lemma emits_only_run_tasks {A} (P : event -> Prop) (task : nat -> job A) :
  (forall i, emits_only P (task i)) ->
  forall order, emits_only P (run_tasks task order).
Proof.
  intros Ht order. induction order as [| i order IH]; simpl.
  - apply emits_only_jret.
  - apply emits_only_jbind; [apply Ht |]. intros a.
    apply emits_only_jbind; [apply IH |]. intros done. apply emits_only_jret.
Qed.

Lemma emits_only_gather {A} (P : event -> Prop) (hint : list nat)
    (tasks : list (job A)) :
  Forall (emits_only P) tasks -> emits_only P (gather hint tasks).
Proof.
  intros Ht. unfold gather.
  apply emits_only_jbind; [| intros; apply emits_only_jret].
  apply emits_only_run_tasks. intros i.
  destruct (nth_error tasks i) as [j |] eqn:E; [| apply emits_only_lift].
  rewrite Forall_forall in Ht. eapply Ht, nth_error_In, E.
Qed.

Lemma quiet_asset (p : string) (b : list Byte.byte) : quiet (WriteAsset p b).
Proof. split; reflexivity. Qed.

Lemma quiet_finished (p h : string) : quiet (DownloadFinished p h).
Proof. split; reflexivity. Qed.

Lemma quiet_chars (chars : Characters) : quiet (CharsGot chars).
Proof. split; reflexivity. Qed.

Lemma emits_only_download_task (w : World) (i : nat) (char : Character) :
  emits_only quiet (download_task w i char).
Proof.
  unfold download_task. apply emits_only_op_retry. intros k.
  apply emits_only_jbind; [apply emits_only_lift |]. intros content.
  apply emits_only_jbind; [apply emits_only_lift |]. intros p.
  apply emits_only_jbind; [apply emits_only_emit, quiet_asset |]. intros _.
  apply emits_only_jbind; [apply emits_only_emit, quiet_finished |]. intros _.
  apply emits_only_jret.
Qed.

Lemma emits_only_prepare_resources (w : World) (chars : Characters) :
  emits_only quiet (prepare_resources w chars).
Proof.
  unfold prepare_resources.
  apply emits_only_jbind; [| intros; apply emits_only_jret].
  apply emits_only_gather.
  generalize O. induction chars as [| c chars IH]; intros s; simpl;
    constructor; [apply emits_only_download_task | apply IH].
Qed.

(** *** What success tells *)

Lemma jbind_ok {A B} (m : job A) (k : A -> job B) t t' (b : B) :
  jbind m k t = (t', inr b) ->
  exists a t1, m t = (t1, inr a) /\ k a t1 = (t', inr b).
Proof.
  unfold jbind. destruct (m t) as [t1 [e | a]]; [discriminate | eauto].
Qed.

Lemma op_retry_ok {A} (op : nat -> job A) (budget k : nat) t t' (a : A) :
  op_retry budget op k t = (t', inr a) ->
  exists j t0, (k <= j <= k + budget)%nat /\ op j t0 = (t', inr a).
Proof.
  revert k t. induction budget as [| b IH]; intros k t; simpl.
  - destruct (op k t) as [t1 [e | a']] eqn:E; [discriminate |].
    intros H0. inversion H0; subst. exists k, t. split; [lia | assumption].
  - destruct (op k t) as [t1 [e | a']] eqn:E.
    + intros H0. destruct (IH _ _ H0) as (j & t0 & Hj & Hop).
      exists j, t0. split; [lia | assumption].
    + intros H0. inversion H0; subst. exists k, t. split; [lia | assumption].
Qed.


Lemma download_task_ok (w : World) (i : nat) (char : Character) t t' pr :
  download_task w i char t = (t', inr pr) -> download_succeeds w i.
Proof.
  unfold download_task. intros H0.
  apply op_retry_ok in H0. destruct H0 as (j & t0 & Hj & Hop).
  apply jbind_ok in Hop. destruct Hop as (content & t1 & Hc & _).
  unfold lift in Hc. destruct (asset_response w i j) as [body |] eqn:E;
    [| discriminate].
  exists j, body. split; [lia | assumption].
Qed.

Lemma run_tasks_ok {A} (task : nat -> job A) (order : list nat) t t' done :
  run_tasks task order t = (t', inr done) ->
  forall i, In i order -> exists t0 t1 a, task i t0 = (t1, inr a).
Proof.
  revert t t' done. induction order as [| i order IH]; intros t t' done H0 j Hj;
    [destruct Hj |].
  simpl in H0. apply jbind_ok in H0. destruct H0 as (a & t1 & Ha & H0).
  apply jbind_ok in H0. destruct H0 as (done' & t2 & Hd & _).
  destruct Hj as [<- | Hj].
  - exists t, t1, a. exact Ha.
  - eapply IH; eassumption.
Qed.

Lemma completion_order_complete (n : nat) (hint : list nat) (i : nat) :
  (i < n)%nat -> In i (completion_order n hint).
Proof.
  intros Hi. unfold completion_order.
  set (named := nodup Nat.eq_dec (filter (fun i => Nat.ltb i n) hint)).
  apply in_app_iff.
  destruct (existsb (Nat.eqb i) named) eqn:E.
  - left. apply existsb_exists in E. destruct E as (j & Hj & Ej).
    apply Nat.eqb_eq in Ej. now subst.
  - right. apply filter_In. split; [apply in_seq; lia | now rewrite E].
Qed.

Lemma download_tasks_nth (w : World) (chars : Characters) (s i : nat) :
  (i < List.length chars)%nat ->
  exists char, nth_error (download_tasks w s chars) i
               = Some (download_task w (s + i) char).
Proof.
  revert s i. induction chars as [| c chars IH]; intros s i Hi; simpl in *;
    [lia |].
  destruct i as [| i]; simpl.
  - exists c. now rewrite Nat.add_0_r.
  - destruct (IH (S s) i) as (char & E); [lia |].
    exists char. rewrite E. do 2 f_equal. lia.
Qed.

Lemma download_tasks_length (w : World) (chars : Characters) (s : nat) :
  List.length (download_tasks w s chars) = List.length chars.
Proof. revert s. induction chars; intros s; simpl; auto. Qed.

Lemma prepare_resources_ok (w : World) (chars : Characters) t t' d :
  prepare_resources w chars t = (t', inr d) ->
  NoDup (keys d)
  /\ forall i, (i < List.length chars)%nat -> download_succeeds w i.
Proof.
  unfold prepare_resources. intros H0.
  apply jbind_ok in H0. destruct H0 as (res & t1 & Hg & Hr).
  inversion Hr; subst. split; [apply dict_of_items_nodup |].
  intros i Hi. unfold gather in Hg.
  apply jbind_ok in Hg. destruct Hg as (done & t2 & Hrun & _).
  rewrite download_tasks_length in Hrun.
  eapply run_tasks_ok in Hrun; [| apply completion_order_complete, Hi].
  destruct Hrun as (t0 & t3 & a & Ht).
  destruct (download_tasks_nth w chars 0 i Hi) as (char & E).
  rewrite E in Ht. simpl in Ht. eapply download_task_ok, Ht.
Qed.


Lemma merge_fonts_ok (w : World) (fonts : list ExternalFont) d t t' d' :
  merge_fonts w fonts d t = (t', inr d') ->
  NoDup (keys d) ->
  t' = t /\ NoDup (keys d') /\ fonts_present w fonts.
Proof.
  revert d. induction fonts as [| f fonts IH]; intros d H0 Hd; simpl in H0.
  - inversion H0; subst. repeat split; [assumption | intros f []].
  - apply jbind_ok in H0. destruct H0 as (sum & t1 & Hs & H0).
    unfold lift in Hs.
    destruct (font_file_checksum w (font_path f)) as [h |] eqn:E;
      [| discriminate].
    inversion Hs; subst.
    destruct (IH _ H0 (dict_set_nodup _ _ _ Hd)) as (Et & Hn & Hf).
    repeat split; try assumption.
    intros g [<- | Hg]; [congruence | now apply Hf].
Qed.

Lemma merge_fonts_raises (w : World) (fonts : list ExternalFont) d t t' e :
  merge_fonts w fonts d t = (t', inl e) -> t' = t.
Proof.
  revert d. induction fonts as [| f fonts IH]; intros d H0; simpl in H0.
  - discriminate.
  - unfold jbind, lift in H0.
    destruct (font_file_checksum w (font_path f)); simpl in H0;
      [eapply IH, H0 | now inversion H0].
Qed.
End Jobs.

Section Orchestrator.
Context `{Externals}.

(** A run either raises and has written neither file, or has passed
    every stage and ends with the two writes. *)
Lemma transform_sekai_like_run (w : World) t r :
  run (transform_sekai_like w) = (t, r) ->
  (exists e, r = raise e /\ Forall quiet t)
  \/ (exists orig chars d m pre,
        read_original_manifest w = ok orig
        /\ characters_json w = ok chars
        /\ (forall i, (i < List.length chars)%nat -> download_succeeds w i)
        /\ match orig with
           | Some b => fonts_present w (StickerPackManifest.external_fonts b)
           | None => True
           end
        /\ NoDup (keys d)
        /\ transform_manifest chars orig = ok m
        /\ Forall quiet pre
        /\ t = (pre ++ [WriteManifest m; WriteChecksum (sort_checksum d)])%list
        /\ r = ok tt).
Proof.
  unfold run, transform_sekai_like. intros Hrun.
  unfold jbind at 1 in Hrun. unfold lift at 1 in Hrun.
  destruct (read_original_manifest w) as [e | orig] eqn:Eo.
  { left. exists e. inversion Hrun. auto. }
  unfold jbind at 1 in Hrun. unfold lift at 1 in Hrun.
  destruct (characters_json w) as [e | chars] eqn:Ec.
  { left. exists e. inversion Hrun. auto. }
  unfold jbind at 1 in Hrun. unfold emit at 1 in Hrun. cbn [app] in Hrun.
  unfold jbind at 1 in Hrun.
  destruct (emits_only_prepare_resources w chars [CharsGot chars])
    as (evs & Et & Hevs).
  destruct (prepare_resources w chars [CharsGot chars]) as [t1 [e | d0]] eqn:Ep;
    simpl in Et; subst t1.
  { left. exists e. inversion Hrun. split; [reflexivity |].
    constructor; [apply quiet_chars | assumption]. }
  destruct (prepare_resources_ok _ _ _ _ _ Ep) as [Hd0 Hdl].
  assert (Hpre : Forall quiet (CharsGot chars :: evs)).
  { constructor; [apply quiet_chars | assumption]. }
  set (t1 := CharsGot chars :: evs) in *.
  unfold jbind at 1 in Hrun.
  assert (Hmerge :
    (exists e, (match orig with
                | Some m => merge_fonts w (StickerPackManifest.external_fonts m) d0
                | None => jret d0
                end) t1 = (t1, inl e))
    \/ (exists d, (match orig with
                   | Some m => merge_fonts w (StickerPackManifest.external_fonts m) d0
                   | None => jret d0
                   end) t1 = (t1, inr d)
                  /\ NoDup (keys d)
                  /\ match orig with
                     | Some b => fonts_present w (StickerPackManifest.external_fonts b)
                     | None => True
                     end)).
  { destruct orig as [b |].
    - destruct (merge_fonts w (StickerPackManifest.external_fonts b) d0 t1)
        as [t2 [e | d]] eqn:Em.
      + left. exists e. now rewrite (merge_fonts_raises _ _ _ _ _ _ Em).
      + right. exists d.
        destruct (merge_fonts_ok _ _ _ _ _ _ Em Hd0) as (-> & Hn & Hf). auto.
    - right. exists d0. auto. }
  destruct Hmerge as [(e & Em) | (d & Em & Hn & Hf)]; rewrite Em in Hrun.
  { left. exists e. inversion Hrun. auto. }
  unfold jbind at 1 in Hrun. unfold lift at 1 in Hrun.
  destruct (transform_manifest chars orig) as [e | m] eqn:Etm.
  { left. exists e. inversion Hrun. auto. }
  right. exists orig, chars, d, m, t1.
  unfold jbind, emit in Hrun. rewrite <- app_assoc in Hrun. inversion Hrun.
  repeat split; try assumption; reflexivity.
Qed.
End Orchestrator.

(** * The claims *)

(** C1 (as amended). For every character of the list, the sticker produced
    at the same position has the text rotation [math.degrees(r / 10)]: the
    rotation field is read as tenths of a radian and converted to degrees,
    [(r / 10) * (180 / pi)] in binary64. *)
Theorem text_rotation_degrees_of_tenths `{Externals} (chars : Characters)
    (base : option StickerPackManifest.t) (m : StickerPackManifest.t) :
  transform_manifest chars base = ok m ->
  forall i char, nth_error chars i = Some char ->
  exists st, nth_error (StickerPackManifest.stickers m) i = Some st
    /\ StickerParamsOptional.text_rotate_degrees (StickerInfoOptionalParams.params st)
       = Some (degrees (CharacterDefaultText.r (char_default_text char) / 10)).
Proof.
  intros Hm i char Hi.
  destruct (transform_manifest_ok _ _ _ Hm) as (params & sts & _ & Hs & _ & Es & _).
  destruct (mapM_nth _ _ _ Hs i char Hi) as (st & Hst & Hof).
  exists st. rewrite Es. split; [assumption | now apply sticker_of_ok].
Qed.

Lemma text_rotation_degrees_of_tenths_witness :
  exists m, transform_manifest (H := sample_externals) [bob; ann] None = ok m
    /\ exists st, nth_error (StickerPackManifest.stickers m) 1 = Some st
         /\ StickerParamsOptional.text_rotate_degrees
              (StickerInfoOptionalParams.params st)
            = Some (degrees (10 / 10)).
Proof.
  eexists. split; [reflexivity |].
  exact (text_rotation_degrees_of_tenths (H := sample_externals)
           [bob; ann] None _ eq_refl 1%nat ann eq_refl).
Defined.

(** C1 as stated fails: for a rotation field of 10 the sticker's rotation is
    [math.degrees(1.0)], about 57.3, and not [10 / 10]. *)
Lemma text_rotation_not_a_tenth :
  exists m st,
    transform_manifest (H := sample_externals) [ann] None = ok m
    /\ nth_error (StickerPackManifest.stickers m) 0 = Some st
    /\ StickerParamsOptional.text_rotate_degrees (StickerInfoOptionalParams.params st)
       <> Some (CharacterDefaultText.r (char_default_text ann) / 10)%float.
Proof.
  do 2 eexists. split; [reflexivity |]. split; [reflexivity |].
  intros Hq.
  apply (f_equal (fun o => match o with
                           | Some x => PrimFloat.ltb 2 x
                           | None => false
                           end)) in Hq.
  vm_compute in Hq. discriminate Hq.
Qed.

(** C2 (as amended). For a string of hexadecimal digits, given with or
    without the leading [#]: three digits are each doubled into red, green
    and blue with full alpha; four digits are read as alpha, red, green,
    blue, each doubled, so the FIRST digit is the alpha channel; six digits
    are red, green, blue with full alpha; eight digits are read as alpha,
    red, green, blue and reordered to red, green, blue, alpha. *)
Theorem color_expansion_rules (s color : string) :
  hex_digits s = true ->
  color = s \/ color = String "#" s ->
  match list_ascii_of_string s with
  | [d1; d2; d3] =>
      web_hex_to_color_tuple color
      = ok [byte_of d1 d1; byte_of d2 d2; byte_of d3 d3; 255]
  | [d1; d2; d3; d4] =>
      web_hex_to_color_tuple color
      = ok [byte_of d2 d2; byte_of d3 d3; byte_of d4 d4; byte_of d1 d1]
  | [d1; d2; d3; d4; d5; d6] =>
      web_hex_to_color_tuple color
      = ok [byte_of d1 d2; byte_of d3 d4; byte_of d5 d6; 255]
  | [d1; d2; d3; d4; d5; d6; d7; d8] =>
      web_hex_to_color_tuple color
      = ok [byte_of d3 d4; byte_of d5 d6; byte_of d7 d8; byte_of d1 d2]
  | _ => True
  end.
Proof.
  intros Hd Hc.
  destruct s as [| d1 [| d2 [| d3 [| d4 [| d5 [| d6 [| d7 [| d8 [| d9 s]]]]]]]]];
    cbn [list_ascii_of_string]; try exact I;
    cbn [hex_digits] in Hd;
    repeat match type of Hd with
           | (_ && _)%bool = true => apply andb_true_iff in Hd; destruct Hd as [? Hd]
           end;
    destruct Hc as [-> | ->].
  - now apply web_hex_3.
  - now apply web_hex_3_hash.
  - now apply web_hex_4.
  - now apply web_hex_4_hash.
  - now apply web_hex_6.
  - now apply web_hex_6_hash.
  - now apply web_hex_8.
  - now apply web_hex_8_hash.
Qed.

Lemma color_expansion_rules_witness :
  web_hex_to_color_tuple "#1a2F" = ok [170; 34; 255; 17].
Proof.
  exact (color_expansion_rules "1a2F" "#1a2F" eq_refl (or_intror eq_refl)).
Defined.

(** C2 as stated fails on four digits: "1234" does not give
    (0x11, 0x22, 0x33, 0x44), the first three digits as the colour and the
    fourth as alpha; it gives (0x22, 0x33, 0x44, 0x11). *)
Lemma four_digits_first_is_alpha :
  web_hex_to_color_tuple "1234"
  <> ok [byte_of "1" "1"; byte_of "2" "2"; byte_of "3" "3"; byte_of "4" "4"]
  /\ web_hex_to_color_tuple "1234"
     = ok [byte_of "2" "2"; byte_of "3" "3"; byte_of "4" "4"; byte_of "1" "1"].
Proof. split; [discriminate | reflexivity]. Qed.



(** C8 (as amended). For every valid colour, normalising the six-digit
    formatting of its tuple gives the same red, green and blue with full
    alpha; it is the tuple of the first normalisation when that one has
    full alpha, as every colour of three or six digits has. *)
Theorem renormalising_keeps_rgb (color : string) :
  hex_digits (removeprefix "#" color) = true ->
  valid_digit_count (digit_count color) = true ->
  exists r g b a,
    web_hex_to_color_tuple color = ok [r; g; b; a]
    /\ web_hex_to_color_tuple (spec_format_hex6 [r; g; b; a]) = ok [r; g; b; 255]
    /\ (a = 255 ->
        web_hex_to_color_tuple (spec_format_hex6 [r; g; b; a])
        = web_hex_to_color_tuple color)
    /\ (digit_count color = 3%nat \/ digit_count color = 6%nat -> a = 255).
Proof.
  intros Hd Hl.
  destruct (web_hex_valid_color color Hd Hl)
    as (r & g & b & a & E & (Hr & Hg & Hb & _) & Ha).
  exists r, g, b, a.
  pose proof (renormalise_hex6 r g b a Hr Hg Hb) as Hn.
  repeat split; try assumption.
  intros ->. now rewrite Hn, E.
Qed.

Lemma renormalising_keeps_rgb_witness :
  exists r g b a,
    web_hex_to_color_tuple "#f00" = ok [r; g; b; a]
    /\ web_hex_to_color_tuple (spec_format_hex6 [r; g; b; a]) = ok [r; g; b; 255]
    /\ (a = 255 ->
        web_hex_to_color_tuple (spec_format_hex6 [r; g; b; a])
        = web_hex_to_color_tuple "#f00")
    /\ (digit_count "#f00" = 3%nat \/ digit_count "#f00" = 6%nat -> a = 255).
Proof. exact (renormalising_keeps_rgb "#f00" eq_refl eq_refl). Defined.

(** C8 as stated fails on a colour with alpha: "80FF0000" normalises to
    (255, 0, 0, 128), its six-digit formatting is "FF0000", and that
    normalises to (255, 0, 0, 255). *)
Lemma renormalising_drops_alpha :
  web_hex_to_color_tuple "80FF0000" = ok [255; 0; 0; 128]
  /\ spec_format_hex6 [255; 0; 0; 128] = "FF0000"
  /\ web_hex_to_color_tuple (spec_format_hex6 [255; 0; 0; 128])
     <> web_hex_to_color_tuple "80FF0000".
Proof. repeat split. discriminate. Qed.

(** C3 (as amended). Without a prior manifest the default sticker
    parameters have the fixed width and height, centred text, the normal
    font style and no font families for every input. The fixed white stroke
    colour is set only when the first character is Sekai-like; for an
    Arcaea-like list it is not set. The fixed stroke-width factor is set for
    every input, whichever the variant. *)
Theorem fresh_defaults `{Externals} (chars : Characters) (m : StickerPackManifest.t) :
  transform_manifest chars None = ok m ->
  let p := StickerPackManifest.default_sticker_params m in
  StickerParamsOptional.width p = Some 296
  /\ StickerParamsOptional.height p = Some 256
  /\ StickerParamsOptional.text_align p = Some "center"
  /\ StickerParamsOptional.font_style p = Some "normal"
  /\ StickerParamsOptional.font_families p = Some []
  /\ StickerParamsOptional.stroke_width_factor p = Some (9 / 38)%float
  /\ StickerParamsOptional.stroke_color p
     = match chars with
       | Sekai _ :: _ => Some [255; 255; 255; 255]
       | _ => None
       end.
Proof.
  intros Hm.
  destruct (transform_manifest_ok _ _ _ Hm) as (params & sts & Hp & _ & Ep & _).
  cbv zeta. rewrite Ep. clear Ep Hm.
  destruct chars as [| c0 chars]; [discriminate Hp |].
  inversion Hp; subst params. cbn.
  repeat split. destruct c0; reflexivity.
Qed.

Lemma fresh_defaults_witness :
  exists m, transform_manifest (H := sample_externals) [bob; ann] None = ok m
    /\ StickerParamsOptional.stroke_color (StickerPackManifest.default_sticker_params m)
       = Some [255; 255; 255; 255]
    /\ StickerParamsOptional.stroke_width_factor
         (StickerPackManifest.default_sticker_params m)
       = Some (9 / 38)%float.
Proof.
  eexists. split; [reflexivity |].
  pose proof (fresh_defaults (H := sample_externals) [bob; ann] _ eq_refl) as Hf.
  cbv zeta in Hf. split; [apply Hf | apply Hf].
Defined.

(** C3 as stated fails on an Arcaea-like list: the default stroke colour
    is not set, but the default stroke-width factor is. *)
Lemma arcaea_defaults_set_stroke_width :
  exists m, transform_manifest (H := sample_externals) [hikari] None = ok m
    /\ is_ArcaeaCharacter hikari = true
    /\ StickerParamsOptional.stroke_color (StickerPackManifest.default_sticker_params m)
       = None
    /\ StickerParamsOptional.stroke_width_factor
         (StickerPackManifest.default_sticker_params m)
       <> None.
Proof.
  eexists. split; [reflexivity |]. repeat split. discriminate.
Qed.

(** C5. With a prior manifest, the produced manifest has the prior
    version, not incremented, and the prior list of external fonts,
    whatever the characters. *)
Theorem version_and_fonts_carried_over `{Externals} (chars : Characters)
    (base m : StickerPackManifest.t) :
  transform_manifest chars (Some base) = ok m ->
  StickerPackManifest.version m = StickerPackManifest.version base
  /\ StickerPackManifest.external_fonts m = StickerPackManifest.external_fonts base.
Proof.
  intros Hm.
  destruct (transform_manifest_ok _ _ _ Hm) as (_ & _ & _ & _ & _ & _ & Ev & Ef).
  auto.
Qed.

Lemma version_and_fonts_carried_over_witness :
  exists m,
    transform_manifest (H := sample_externals) [bob; ann] (Some sample_manifest) = ok m
    /\ StickerPackManifest.version m = 3
    /\ StickerPackManifest.external_fonts m = ["fonts/a.ttf"; "fonts/b.ttf"].
Proof.
  eexists. split; [reflexivity |].
  exact (version_and_fonts_carried_over (H := sample_externals)
           [bob; ann] sample_manifest _ eq_refl).
Defined.

(** C9. Two characters of the same category whose image file names differ
    have different local paths, and both paths are the category with its
    first letter in upper case, a slash, and the file name. *)
Theorem local_paths_differ `{Externals} (c1 c2 : Character) (p1 p2 : string) :
  char_character c1 = char_character c2 ->
  URL_name (char_img c1) <> URL_name (char_img c2) ->
  to_local_path c1 = ok p1 ->
  to_local_path c2 = ok p2 ->
  p1 <> p2
  /\ exists first rest,
       char_character c1 = String first rest
       /\ p1 = String (upper_ascii first) rest ++ "/" ++ URL_name (char_img c1)
       /\ p2 = String (upper_ascii first) rest ++ "/" ++ URL_name (char_img c2).
Proof.
  intros Hcat Hname H1 H2.
  apply to_local_path_ok in H1. destruct H1 as (dir1 & Hn1 & ->).
  apply to_local_path_ok in H2. destruct H2 as (dir2 & Hn2 & ->).
  rewrite <- Hcat in Hn2. rewrite Hn1 in Hn2. inversion Hn2; subst dir2.
  apply normalize_character_name_ok in Hn1.
  destruct Hn1 as (first & rest & Ec & ->).
  split.
  - intros E. apply append_inj_l in E. inversion E. contradiction.
  - exists first, rest. auto.
Qed.

Lemma local_paths_differ_witness :
  "Ann/a.png" <> "Ann/a2.png"
  /\ exists first rest,
       char_character ann = String first rest
       /\ "Ann/a.png"
          = String (upper_ascii first) rest ++ "/"
            ++ URL_name (Externals := sample_externals) (char_img ann)
       /\ "Ann/a2.png"
          = String (upper_ascii first) rest ++ "/"
            ++ URL_name (Externals := sample_externals) (char_img ann2).
Proof.
  apply (local_paths_differ (H := sample_externals) ann ann2 "Ann/a.png" "Ann/a2.png").
  - reflexivity.
  - discriminate.
  - reflexivity.
  - reflexivity.
Defined.

(** C10. Without a prior manifest the transformer reads the first element
    of the character list: on the empty list it raises the index error of
    that read instead of producing a manifest. With a prior manifest the
    empty list is fine, and a list that is not empty never raises that
    error. *)
Theorem empty_list_needs_prior_manifest `{Externals} :
  transform_manifest [] None = raise ListIndexError
  /\ class_of ListIndexError = IndexError
  /\ (forall base, exists m,
        transform_manifest [] (Some base) = ok m
        /\ StickerPackManifest.stickers m = [])
  /\ (forall c chars, transform_manifest (c :: chars) None <> raise ListIndexError).
Proof.
  split; [reflexivity |]. split; [reflexivity |]. split.
  - intros base. eexists. split; reflexivity.
  - intros c chars Hr. unfold transform_manifest in Hr.
    cbn [fresh_default_sticker_params list_getitem0 rbind ok] in Hr.
    destruct (mapM sticker_of (c :: chars)) as [e | sts] eqn:Em;
      cbn [rbind] in Hr; [| discriminate Hr].
    inversion Hr; subst e.
    apply mapM_raises in Em. destruct Em as (a & _ & Ha).
    now apply sticker_of_raises in Ha.
Qed.

(** ** Traces *)

Lemma quiet_not_write `{Externals} (t : list event) :
  Forall quiet t ->
  ~ Exists (fun e => writes_manifest e = true \/ writes_checksum e = true) t.
Proof.
  intros Hq Hex. apply Exists_exists in Hex. destruct Hex as (e & He & Hw).
  rewrite Forall_forall in Hq. destruct (Hq e He) as [Hm Hc].
  destruct Hw; congruence.
Qed.

Lemma quiet_not_checksum `{Externals} (t : list event) (c : ChecksumDict) :
  Forall quiet t -> ~ In (WriteChecksum c) t.
Proof.
  intros Hq Hin. rewrite Forall_forall in Hq.
  destruct (Hq _ Hin) as [_ Hc]. discriminate Hc.
Qed.

Lemma exhausted_not_succeeds `{Externals} (w : World) (i : nat) :
  download_exhausted w i -> ~ download_succeeds w i.
Proof.
  intros He (k & body & Hk & Hb). rewrite (He k Hk) in Hb. discriminate.
Qed.

(** C4. If one asset download exhausts its retry budget, the job raises and
    its trace holds neither the write of the manifest nor the write of the
    checksum file. A trace that holds either write comes from a run where
    the prior manifest was read, the source was fetched, every download
    succeeded and every font was found; the run then returns, and the two
    writes are its last two events. *)
Theorem no_partial_manifest `{Externals} (w : World) (t : list event)
    (r : result unit) :
  run (transform_sekai_like w) = (t, r) ->
  (forall chars i,
      characters_json w = ok chars ->
      (i < List.length chars)%nat ->
      download_exhausted w i ->
      (exists e, r = raise e) /\ Forall quiet t)
  /\ (Exists (fun e => writes_manifest e = true \/ writes_checksum e = true) t ->
      exists orig chars m c pre,
        read_original_manifest w = ok orig
        /\ characters_json w = ok chars
        /\ (forall i, (i < List.length chars)%nat -> download_succeeds w i)
        /\ match orig with
           | Some b => fonts_present w (StickerPackManifest.external_fonts b)
           | None => True
           end
        /\ Forall quiet pre
        /\ t = (pre ++ [WriteManifest m; WriteChecksum c])%list
        /\ r = ok tt).
Proof.
  intros Hrun.
  destruct (transform_sekai_like_run w t r Hrun)
    as [(e & -> & Hq)
       | (orig & chars & d & m & pre & Ho & Hc & Hd & Hf & _ & _ & Hq & -> & ->)].
  - split.
    + intros. split; [eauto | assumption].
    + intros Hex. now apply quiet_not_write in Hex.
  - split.
    + intros chars' i Hc' Hi He. rewrite Hc in Hc'. inversion Hc'; subst chars'.
      destruct (exhausted_not_succeeds w i He (Hd i Hi)).
    + intros _. exists orig, chars, m, (sort_checksum d), pre. auto 10.
Qed.

Lemma no_partial_manifest_witness :
  (exists e, snd (run (transform_sekai_like failing_world)) = raise e)
  /\ Forall quiet (fst (run (transform_sekai_like failing_world))).
Proof.
  apply (proj1 (no_partial_manifest (H := sample_externals) failing_world _ _
                  (surjective_pairing _))
           [bob; ann] 1%nat).
  - reflexivity.
  - apply le_n.
  - intros k _. reflexivity.
Defined.



(** * Further properties of the code *)

(** ** Names and colours *)

Lemma upper_ascii_idem (c : ascii) : upper_ascii (upper_ascii c) = upper_ascii c.
Proof.
  apply Ascii.eqb_eq. revert c. apply forall_ascii. vm_compute. reflexivity.
Qed.

Lemma upper_lower_ascii (c : ascii) : upper_ascii (lower_ascii c) = upper_ascii c.
Proof.
  apply Ascii.eqb_eq. revert c. apply forall_ascii. vm_compute. reflexivity.
Qed.

Lemma upper_idem (s : string) : upper (upper s) = upper s.
Proof. induction s; simpl; [reflexivity | now rewrite upper_ascii_idem, IHs]. Qed.

Lemma upper_lower (s : string) : upper (lower s) = upper s.
Proof. induction s; simpl; [reflexivity | now rewrite upper_lower_ascii, IHs]. Qed.


(** X2. The normaliser does not look at the case of its input: the upper
    case and the lower case of a string give what the string gives, the
    same tuple or the same exception. *)
Theorem web_hex_ignores_case (color : string) :
  web_hex_to_color_tuple (upper color) = web_hex_to_color_tuple color
  /\ web_hex_to_color_tuple (lower color) = web_hex_to_color_tuple color.
Proof.
  unfold web_hex_to_color_tuple. now rewrite upper_idem, upper_lower.
Qed.

Lemma mapM_int16_class (f : nat -> string) (l : list nat) :
  match mapM (fun i => int16 (f i)) l with
  | inr vs => List.length vs = List.length l
  | inl e => exists i, In i l /\ e = InvalidLiteral (f i)
  end.
Proof.
  destruct (mapM _ l) as [e | vs] eqn:E.
  - apply mapM_raises in E. destruct E as (i & Hi & Hf).
    apply int16_raises in Hf. eauto.
  - now apply mapM_length in E.
Qed.

(** X3. On every string, hexadecimal or not, the normaliser either returns
    a tuple of exactly four integers or raises a [ValueError]: its own
    format error, or the error of [int] on one of the four slices. It never
    raises an index error. *)
Theorem web_hex_four_or_value_error (color : string) :
  match web_hex_to_color_tuple color with
  | inr t => List.length t = 4%nat
  | inl e =>
      class_of e = ValueError
      /\ (e = InvalidColorFormat \/ exists lit, e = InvalidLiteral lit)
  end.
Proof.
  unfold web_hex_to_color_tuple.
  set (c := removeprefix "#" (upper color)).
  assert (Hm : forall x : string,
             match mapM (fun i => int16 (slice i (i + 2) x)) range_0_8_2 with
             | inr t => List.length t = 4%nat
             | inl e => class_of e = ValueError
                        /\ (e = InvalidColorFormat \/ exists lit, e = InvalidLiteral lit)
             end).
  { intros x.
    pose proof (mapM_int16_class (fun i => slice i (i + 2) x) range_0_8_2) as Hx.
    destruct (mapM _ range_0_8_2) as [e | t]; [| exact Hx].
    destruct Hx as (i & _ & ->). split; [reflexivity | eauto]. }
  destruct (Nat.eqb (String.length c) 3) eqn:E3; [rewrite rbind_ok; apply Hm |].
  destruct (Nat.eqb (String.length c) 4) eqn:E4.
  { destruct c as [| c0 c']; [discriminate E4 |].
    cbn [str_getitem get]. rewrite !rbind_ok. apply Hm. }
  destruct (Nat.eqb (String.length c) 6) eqn:E6; [rewrite rbind_ok; apply Hm |].
  destruct (Nat.eqb (String.length c) 8) eqn:E8; [rewrite rbind_ok; apply Hm |].
  cbn. split; [reflexivity | auto].
Qed.

Lemma int16_signed_digit (d : ascii) :
  is_hex d = true -> int16 (String "-" (String d "")) = ok (- hv d).
Proof.
  assert (H : implb (is_hex d)
                match int16 (String "-" (String d "")) with
                | inr v => v =? - hv d
                | inl _ => false
                end = true).
  { revert d. apply forall_ascii. vm_compute. reflexivity. }
  intros Hd. rewrite Hd in H. simpl in H.
  destruct (int16 _) as [e | v]; [discriminate |].
  apply Z.eqb_eq in H. now subst.
Qed.

(** X4. The normaliser takes what [int(.., 16)] takes, which is more than
    hexadecimal digits: six characters that are three signed digits are
    accepted, and give channels below zero. *)
Theorem web_hex_accepts_signed_digits (d1 d2 d3 : ascii) :
  is_hex d1 = true -> is_hex d2 = true -> is_hex d3 = true ->
  web_hex_to_color_tuple
    (String "-" (String d1 (String "-" (String d2 (String "-" (String d3 ""))))))
  = ok [- hv d1; - hv d2; - hv d3; 255].
Proof.
  intros H1 H2 H3.
  unfold web_hex_to_color_tuple; cbn [upper].
  change (upper_ascii "-") with "-"%char.
  repeat match goal with
         | H : is_hex ?d = true |- context [upper_ascii ?d] => upper_digit d
         end.
  unfold removeprefix; cbn [prefix].
  destruct (ascii_dec "#" "-"); [discriminate |].
  cbn -[int16 Z.opp].
  rewrite int16_FF, !int16_signed_digit by assumption.
  reflexivity.
Qed.

Lemma web_hex_accepts_signed_digits_witness :
  web_hex_to_color_tuple "-1-a-F" = ok [-1; -10; -15; 255].
Proof.
  exact (web_hex_accepts_signed_digits "1" "a" "F" eq_refl eq_refl eq_refl).
Defined.

(** X5. The short forms are the long forms with every digit doubled: three
    digits give what their six doubled digits give, and four digits give
    what their eight doubled digits give. *)
Theorem web_hex_short_is_doubled (d1 d2 d3 d4 : ascii) :
  is_hex d1 = true -> is_hex d2 = true -> is_hex d3 = true -> is_hex d4 = true ->
  web_hex_to_color_tuple (String d1 (String d2 (String d3 "")))
  = web_hex_to_color_tuple
      (String d1 (String d1 (String d2 (String d2 (String d3 (String d3 ""))))))
  /\ web_hex_to_color_tuple (String d1 (String d2 (String d3 (String d4 ""))))
     = web_hex_to_color_tuple
         (String d1 (String d1 (String d2 (String d2 (String d3 (String d3
            (String d4 (String d4 "")))))))).
Proof.
  intros H1 H2 H3 H4.
  rewrite web_hex_3, web_hex_4, web_hex_6, web_hex_8 by assumption.
  split; reflexivity.
Qed.

Lemma web_hex_short_is_doubled_witness :
  web_hex_to_color_tuple "f0a" = web_hex_to_color_tuple "ff00aa"
  /\ web_hex_to_color_tuple "f0a8" = web_hex_to_color_tuple "ff00aa88".
Proof.
  exact (web_hex_short_is_doubled "f" "0" "a" "8" eq_refl eq_refl eq_refl eq_refl).
Defined.

(** ** The transformer *)

Lemma sticker_of_fields `{Externals} (char : Character) (st : StickerInfoOptionalParams.t) :
  sticker_of char = ok st ->
  exists dir text_color stroke_color,
    normalize_character_name (char_character char) = ok dir
    /\ match char with
       | Sekai c =>
           web_hex_to_color_tuple (SekaiCharacter.color c) = ok text_color
           /\ stroke_color = None
       | Arcaea c =>
           web_hex_to_color_tuple (ArcaeaCharacter.fill_color c) = ok text_color
           /\ exists t, web_hex_to_color_tuple (ArcaeaCharacter.stroke_color c) = ok t
                        /\ stroke_color = Some t
       end
    /\ st = StickerInfoOptionalParams.mk (char_name char) dir
              (StickerParamsOptional.mk None None
                 (Some (dir ++ "/" ++ URL_name (char_img char)))
                 (Some (CharacterDefaultText.text (char_default_text char)))
                 (Some (CharacterDefaultText.x (char_default_text char)))
                 (Some (CharacterDefaultText.y (char_default_text char)))
                 None
                 (Some (degrees (CharacterDefaultText.r (char_default_text char) / 10)))
                 (Some text_color) stroke_color None
                 (Some (CharacterDefaultText.s (char_default_text char)))
                 None None).
Proof.
  unfold sticker_of, to_local_path.
  destruct (normalize_character_name _) as [e | dir]; [discriminate |].
  cbn [rbind ok].
  destruct char as [c | c].
  - destruct (web_hex_to_color_tuple _) as [e | tc]; [discriminate |].
    cbn. intros H0. inversion H0. exists dir, tc, None. auto.
  - destruct (web_hex_to_color_tuple (ArcaeaCharacter.fill_color c)) as [e | tc];
      [discriminate |].
    cbn [rbind].
    destruct (web_hex_to_color_tuple (ArcaeaCharacter.stroke_color c)) as [e | sc];
      [discriminate |].
    cbn. intros H0. inversion H0. exists dir, tc, (Some sc). eauto 8.
Qed.

(** X6. A manifest has one sticker per character, in the order of the
    characters. The sticker takes the character's name, its category with
    the first letter in upper case, the local path as base image, and the
    text, position and font size of the default text; it sets no width,
    height, alignment, stroke width, font style or font families. *)
Theorem stickers_follow_characters `{Externals} (chars : Characters)
    (base : option StickerPackManifest.t) (m : StickerPackManifest.t) :
  transform_manifest chars base = ok m ->
  List.length (StickerPackManifest.stickers m) = List.length chars
  /\ forall i char,
       nth_error chars i = Some char ->
       exists st dir,
         nth_error (StickerPackManifest.stickers m) i = Some st
         /\ normalize_character_name (char_character char) = ok dir
         /\ StickerInfoOptionalParams.name st = char_name char
         /\ StickerInfoOptionalParams.category st = dir
         /\ let p := StickerInfoOptionalParams.params st in
            let d := char_default_text char in
            StickerParamsOptional.base_image p
            = Some (dir ++ "/" ++ URL_name (char_img char))
            /\ StickerParamsOptional.text p = Some (CharacterDefaultText.text d)
            /\ StickerParamsOptional.text_x p = Some (CharacterDefaultText.x d)
            /\ StickerParamsOptional.text_y p = Some (CharacterDefaultText.y d)
            /\ StickerParamsOptional.font_size p = Some (CharacterDefaultText.s d)
            /\ StickerParamsOptional.width p = None
            /\ StickerParamsOptional.height p = None
            /\ StickerParamsOptional.text_align p = None
            /\ StickerParamsOptional.stroke_width_factor p = None
            /\ StickerParamsOptional.font_style p = None
            /\ StickerParamsOptional.font_families p = None.
Proof.
  intros Hm.
  destruct (transform_manifest_ok _ _ _ Hm) as (params & sts & _ & Hs & _ & Es & _).
  rewrite Es. split; [now apply mapM_length in Hs |].
  intros i char Hi.
  destruct (mapM_nth _ _ _ Hs i char Hi) as (st & Hst & Hof).
  destruct (sticker_of_fields _ _ Hof) as (dir & tc & sc & Hn & _ & ->).
  eexists. exists dir. split; [exact Hst |]. cbn. repeat split; assumption.
Qed.

Lemma stickers_follow_characters_witness :
  exists m, transform_manifest (H := sample_externals) [bob; ann] None = ok m
    /\ List.length (StickerPackManifest.stickers m) = 2%nat.
Proof.
  eexists. split; [reflexivity |].
  exact (proj1 (stickers_follow_characters (H := sample_externals)
                  [bob; ann] None _ eq_refl)).
Defined.

(** X7. The text colour of a sticker is the normalised [color] of a
    Sekai-like character and the normalised [fill_color] of an Arcaea-like
    one; the stroke colour is the normalised [stroke_color] of an
    Arcaea-like character and is not set for a Sekai-like one. *)
Theorem sticker_colours_by_variant `{Externals} (chars : Characters)
    (base : option StickerPackManifest.t) (m : StickerPackManifest.t) :
  transform_manifest chars base = ok m ->
  forall i char,
    nth_error chars i = Some char ->
    exists st,
      nth_error (StickerPackManifest.stickers m) i = Some st
      /\ let p := StickerInfoOptionalParams.params st in
         match char with
         | Sekai c =>
             (exists t, web_hex_to_color_tuple (SekaiCharacter.color c) = ok t
                        /\ StickerParamsOptional.text_color p = Some t)
             /\ StickerParamsOptional.stroke_color p = None
         | Arcaea c =>
             (exists t, web_hex_to_color_tuple (ArcaeaCharacter.fill_color c) = ok t
                        /\ StickerParamsOptional.text_color p = Some t)
             /\ (exists t, web_hex_to_color_tuple (ArcaeaCharacter.stroke_color c) = ok t
                           /\ StickerParamsOptional.stroke_color p = Some t)
         end.
Proof.
  intros Hm i char Hi.
  destruct (transform_manifest_ok _ _ _ Hm) as (params & sts & _ & Hs & _ & Es & _).
  rewrite Es.
  destruct (mapM_nth _ _ _ Hs i char Hi) as (st & Hst & Hof).
  destruct (sticker_of_fields _ _ Hof) as (dir & tc & sc & _ & Hc & ->).
  eexists. split; [exact Hst |]. cbn.
  destruct char as [c | c].
  - destruct Hc as [Ht ->]. split; [exists tc; auto | reflexivity].
  - destruct Hc as (Ht & t & Hs' & ->).
    split; [exists tc; auto | exists t; auto].
Qed.

Lemma sticker_colours_by_variant_witness :
  exists m, transform_manifest (H := sample_externals) [hikari] None = ok m
    /\ exists st,
         nth_error (StickerPackManifest.stickers m) 0 = Some st
         /\ (exists t, web_hex_to_color_tuple "#ffffff" = ok t
                       /\ StickerParamsOptional.text_color
                            (StickerInfoOptionalParams.params st) = Some t)
         /\ (exists t, web_hex_to_color_tuple "#57c8e6" = ok t
                       /\ StickerParamsOptional.stroke_color
                            (StickerInfoOptionalParams.params st) = Some t).
Proof.
  eexists. split; [reflexivity |].
  exact (sticker_colours_by_variant (H := sample_externals)
           [hikari] None _ eq_refl 0%nat hikari eq_refl).
Defined.

(** X8. With a prior manifest the name, description, default
    configuration, default sticker parameters, grid setting and sample
    sticker are the prior ones. The stickers are built from the characters
    alone: they are the same with any other prior manifest, or with none. *)
Theorem carry_over_and_fresh_stickers `{Externals} (chars : Characters)
    (base m : StickerPackManifest.t) :
  transform_manifest chars (Some base) = ok m ->
  StickerPackManifest.name m = StickerPackManifest.name base
  /\ StickerPackManifest.description m = StickerPackManifest.description base
  /\ StickerPackManifest.default_config m = StickerPackManifest.default_config base
  /\ StickerPackManifest.default_sticker_params m
     = StickerPackManifest.default_sticker_params base
  /\ StickerPackManifest.sticker_grid m = StickerPackManifest.sticker_grid base
  /\ StickerPackManifest.sample_sticker m = StickerPackManifest.sample_sticker base
  /\ forall base' m',
       transform_manifest chars base' = ok m' ->
       StickerPackManifest.stickers m' = StickerPackManifest.stickers m.
Proof.
  intros Hm.
  pose proof (transform_manifest_ok _ _ _ Hm) as (params & sts & _ & Hs & _ & Es & _).
  unfold transform_manifest in Hm. rewrite Hs in Hm. cbn in Hm.
  inversion Hm; subst m. cbn. repeat split.
  intros base' m' Hm'.
  destruct (transform_manifest_ok _ _ _ Hm') as (_ & sts' & _ & Hs' & _ & Es' & _).
  rewrite Es'. rewrite Hs in Hs'. now inversion Hs'.
Qed.

Lemma carry_over_and_fresh_stickers_witness :
  exists m,
    transform_manifest (H := sample_externals) [bob; ann] (Some sample_manifest) = ok m
    /\ StickerPackManifest.name m = "PJSK"
    /\ StickerPackManifest.description m = "stickers".
Proof.
  eexists. split; [reflexivity |].
  pose proof (carry_over_and_fresh_stickers (H := sample_externals)
                [bob; ann] sample_manifest _ eq_refl) as Hc.
  split; apply Hc.
Defined.

Lemma mapM_ok_iff {A B} (f : A -> result B) (l : list A) :
  (exists l', mapM f l = ok l') <-> Forall (fun a => exists b, f a = ok b) l.
Proof.
  induction l as [| a l IH]; simpl.
  - split; [constructor | eauto].
  - split.
    + intros (l' & Hl). destruct (f a) as [e | b] eqn:Ea; [discriminate |].
      destruct (mapM f l) as [e | bs] eqn:El; [discriminate |].
      constructor; [eauto | apply IH; eauto].
    + intros Hf. inversion Hf as [| ? ? (b & Hb) Hl]; subst.
      apply IH in Hl. destruct Hl as (bs & Hbs).
      rewrite Hb, Hbs. cbn. eauto.
Qed.

Lemma sticker_of_ok_iff `{Externals} (char : Character) :
  (exists st, sticker_of char = ok st) <-> char_ok char.
Proof.
  split.
  - intros (st & Hs).
    destruct (sticker_of_fields _ _ Hs) as (dir & tc & sc & Hn & Hc & _).
    split.
    + intros E. rewrite E in Hn. discriminate Hn.
    + destruct char as [c | c].
      * destruct Hc. eauto.
      * destruct Hc as (? & t & ? & ?). eauto.
  - intros [Hcat Hcol]. unfold sticker_of, to_local_path.
    destruct (char_character char) as [| c0 rest] eqn:Ec; [contradiction |].
    rewrite normalize_character_name_cons. cbn [rbind ok].
    destruct char as [c | c].
    + destruct Hcol as (t & ->). cbn. eauto.
    + destruct Hcol as [(t & ->) (t' & ->)]. cbn. eauto.
Qed.

(** X9. The transformer returns a manifest exactly when there is a prior
    manifest or a first character, and every character has a category that
    is not empty and colours that normalise. *)
Theorem transform_manifest_returns_iff `{Externals} (chars : Characters)
    (base : option StickerPackManifest.t) :
  (exists m, transform_manifest chars base = ok m)
  <-> (base <> None \/ chars <> []) /\ Forall char_ok chars.
Proof.
  assert (Hf : Forall char_ok chars <-> exists sts, mapM sticker_of chars = ok sts).
  { rewrite mapM_ok_iff, !Forall_forall.
    split; intros Hx a Ha; apply sticker_of_ok_iff, Hx, Ha. }
  split.
  - intros (m & Hm).
    destruct (transform_manifest_ok _ _ _ Hm) as (params & sts & Hp & Hs & _).
    split; [| apply Hf; eauto].
    destruct base; [left; discriminate |].
    right. intros ->. discriminate Hp.
  - intros [Hne Hok]. apply Hf in Hok. destruct Hok as (sts & Hs).
    unfold transform_manifest. rewrite Hs.
    destruct base as [b |]; cbn; [eauto |].
    destruct chars as [| c chars]; [destruct Hne; congruence |].
    cbn. eauto.
Qed.

(** ** Jobs without their starting trace *)

Section Frames.
Context `{Externals}.

Lemma framed_jret {A} (a : A) : framed (jret a).
Proof. intros t. cbn. now rewrite app_nil_r. Qed.

Lemma framed_lift {A} (r : result A) : framed (lift r).
Proof. intros t. cbn. now rewrite app_nil_r. Qed.

Lemma framed_emit (e : event) : framed (emit e).
Proof. intros t. reflexivity. Qed.

Lemma framed_jbind {A B} (m : job A) (k : A -> job B) :
  framed m -> (forall a, framed (k a)) -> framed (jbind m k).
Proof.
  intros Hm Hk t. unfold jbind. rewrite (Hm t).
  destruct (m []) as [e1 [e | a]]; cbn [fst snd]; [reflexivity |].
  rewrite (Hk a (t ++ e1)%list), (Hk a e1). cbn [fst snd].
  now rewrite app_assoc.
Qed.

Lemma framed_op_retry {A} (op : nat -> job A) :
  (forall k, framed (op k)) -> forall budget k, framed (op_retry budget op k).
Proof.
  intros Hop budget. induction budget as [| b IH]; intros k t; cbn [op_retry].
  - rewrite (Hop k t). destruct (op k []) as [e1 [e | a]]; reflexivity.
  - rewrite (Hop k t). destruct (op k []) as [e1 [e | a]]; cbn [fst snd];
      [| reflexivity].
    rewrite (IH (S k) (t ++ e1)%list), (IH (S k) e1). cbn [fst snd].
    now rewrite app_assoc.
Qed.

Lemma framed_run_tasks {A} (task : nat -> job A) :
  (forall i, framed (task i)) -> forall order, framed (run_tasks task order).
Proof.
  intros Ht order. induction order as [| i order IH]; cbn [run_tasks].
  - apply framed_jret.
  - apply framed_jbind; [apply Ht |]. intros a.
    apply framed_jbind; [apply IH |]. intros done. apply framed_jret.
Qed.

Lemma framed_download_task (w : World) (i : nat) (char : Character) :
  framed (download_task w i char).
Proof.
  unfold download_task. apply framed_op_retry. intros k.
  apply framed_jbind; [apply framed_lift |]. intros content.
  apply framed_jbind; [apply framed_lift |]. intros p.
  apply framed_jbind; [apply framed_emit |]. intros _.
  apply framed_jbind; [apply framed_emit |]. intros _.
  apply framed_jret.
Qed.

(** *** One download *)

Lemma download_task_nil (w : World) (i : nat) (char : Character) :
  download_task w i char []
  = match download_outcome w i char with
    | inr item => (asset_events item, ok (checksum_item item))
    | inl e => ([], raise e)
    end.
Proof.
  unfold download_task, download_outcome, attempt.
  generalize O as k. generalize retries as budget.
  destruct (to_local_path char) as [e | p];
    induction budget as [| b IH]; intros k; cbn [op_retry retried];
    unfold jbind, lift, emit;
    destruct (asset_response w i k) as [body |]; cbn;
    try reflexivity; apply IH.
Qed.

Lemma download_task_exact (w : World) (i : nat) (char : Character) t :
  download_task w i char t
  = match download_outcome w i char with
    | inr item => ((t ++ asset_events item)%list, ok (checksum_item item))
    | inl e => (t, raise e)
    end.
Proof.
  rewrite (framed_download_task w i char t), download_task_nil.
  destruct (download_outcome w i char); cbn; [now rewrite app_nil_r | reflexivity].
Qed.

(** *** Retries *)

Lemma retried_first {A} (op : nat -> result A) (budget k j : nat) (a : A) :
  (k <= j <= k + budget)%nat ->
  op j = ok a ->
  (forall j', (k <= j' < j)%nat -> exists e, op j' = raise e) ->
  retried budget op k = ok a.
Proof.
  revert k. induction budget as [| b IH]; intros k Hj Ha Hbefore; cbn [retried].
  - assert (j = k) by lia. subst j. now rewrite Ha.
  - destruct (Nat.eq_dec j k) as [-> | Hne]; [now rewrite Ha |].
    destruct (Hbefore k) as (e & He); [lia |]. rewrite He. cbn.
    apply IH; [lia | assumption |]. intros j' Hj'. apply Hbefore. lia.
Qed.

Lemma retried_last {A} (op : nat -> result A) (budget k : nat) (e : exn) :
  (forall j, (k <= j <= k + budget)%nat -> op j = raise e) ->
  retried budget op k = raise e.
Proof.
  revert k. induction budget as [| b IH]; intros k Hall; cbn [retried].
  - rewrite (Hall k); [reflexivity | lia].
  - rewrite (Hall k); [| lia]. cbn. apply IH. intros j Hj. apply Hall. lia.
Qed.

Lemma retried_ok {A} (op : nat -> result A) (budget k : nat) (a : A) :
  retried budget op k = ok a ->
  exists j, (k <= j <= k + budget)%nat /\ op j = ok a.
Proof.
  revert k. induction budget as [| b IH]; intros k; cbn [retried].
  - destruct (op k) as [e | a'] eqn:E; [discriminate |].
    intros H0. exists k. split; [lia | congruence].
  - destruct (op k) as [e | a'] eqn:E.
    + intros H0. destruct (IH _ H0) as (j & Hj & Hop). exists j. split; [lia | auto].
    + intros H0. exists k. split; [lia | congruence].
Qed.

(** X10. Retries are not seen from outside. If attempt [k] of a download is
    the first to answer, within the budget, the task writes that body once
    under the character's local path, reports it once with its checksum,
    and returns the path and the checksum; the attempts that failed leave
    nothing. If no attempt within the budget answers, the task raises the
    download error and writes nothing. *)
Theorem retry_transparency (w : World) (i : nat) (char : Character)
    (t : list event) :
  (forall k body p,
      (k <= retries)%nat ->
      asset_response w i k = Some body ->
      (forall j, (j < k)%nat -> asset_response w i j = None) ->
      to_local_path char = ok p ->
      download_task w i char t
      = ((t ++ [WriteAsset p body; DownloadFinished p (calc_checksum body)])%list,
         ok (p, calc_checksum body)))
  /\ (download_exhausted w i ->
      download_task w i char t = (t, raise DownloadFailed)).
Proof.
  split.
  - intros k body p Hk Hb Hbefore Hp. rewrite download_task_exact.
    unfold download_outcome.
    rewrite (retried_first (attempt w i char) retries 0 k (p, body)).
    + reflexivity.
    + lia.
    + unfold attempt. now rewrite Hb, Hp.
    + intros j' Hj'. unfold attempt. rewrite Hbefore by lia. eauto.
  - intros He. rewrite download_task_exact. unfold download_outcome.
    rewrite (retried_last (attempt w i char) retries 0 DownloadFailed);
      [reflexivity |].
    intros j Hj. unfold attempt. rewrite He by lia. reflexivity.
Qed.
End Frames.

(** ** The download stage *)

Lemma completion_order_bound (n : nat) (hint : list nat) (i : nat) :
  In i (completion_order n hint) -> (i < n)%nat.
Proof.
  unfold completion_order. rewrite in_app_iff, nodup_In, !filter_In, in_seq.
  intros [[_ Hi] | [Hi _]]; [now apply Nat.ltb_lt in Hi | lia].
Qed.

Lemma completion_order_nodup (n : nat) (hint : list nat) :
  NoDup (completion_order n hint).
Proof.
  unfold completion_order.
  set (named := nodup Nat.eq_dec (filter (fun i => Nat.ltb i n) hint)).
  apply NoDup_app.
  - apply NoDup_nodup.
  - apply NoDup_filter, seq_NoDup.
  - intros i Hi Hf. apply filter_In in Hf. destruct Hf as [_ Hf].
    apply negb_true_iff in Hf.
    assert (existsb (Nat.eqb i) named = true); [| congruence].
    apply existsb_exists. exists i. split; [assumption | apply Nat.eqb_refl].
Qed.

(** Every task finishes once. *)
Lemma completion_order_perm (n : nat) (hint : list nat) :
  Permutation (completion_order n hint) (seq 0 n).
Proof.
  apply NoDup_Permutation; [apply completion_order_nodup | apply seq_NoDup |].
  intros i. rewrite in_seq. split.
  - intros Hi. apply completion_order_bound in Hi. lia.
  - intros Hi. apply completion_order_complete. lia.
Qed.

Section Downloads.
Context `{Externals}.

Lemma run_tasks_all_ok {A} (task : nat -> job A) (ev : nat -> list event)
    (res : nat -> A) (order : list nat) :
  (forall i, In i order -> forall t, task i t = ((t ++ ev i)%list, ok (res i))) ->
  forall t, run_tasks task order t
            = ((t ++ flat_map ev order)%list, ok (map (fun i => (i, res i)) order)).
Proof.
  induction order as [| i order IH]; intros Hall t; cbn [run_tasks flat_map map].
  - cbn. now rewrite app_nil_r.
  - unfold jbind at 1. rewrite (Hall i (or_introl eq_refl)).
    unfold jbind at 1. rewrite IH by (intros; apply Hall; now right).
    cbn. now rewrite app_assoc.
Qed.

Lemma find_done {A} (res : nat -> A) (order : list nat) (i : nat) :
  In i order ->
  find (fun d => Nat.eqb (fst d) i) (map (fun i => (i, res i)) order)
  = Some (i, res i).
Proof.
  induction order as [| j order IH]; intros Hi; [destruct Hi |].
  cbn. destruct (Nat.eqb_spec j i) as [-> | Hne]; [reflexivity |].
  destruct Hi as [-> | Hi]; [contradiction | auto].
Qed.

Lemma collect_done {A} (res : nat -> A) (order l : list nat) :
  (forall i, In i l -> In i order) ->
  flat_map
    (fun i =>
       match find (fun d => Nat.eqb (fst d) i) (map (fun i => (i, res i)) order) with
       | Some d => [snd d]
       | None => []
       end)
    l
  = map res l.
Proof.
  induction l as [| i l IH]; intros Hin; cbn [flat_map map]; [reflexivity |].
  rewrite find_done by (apply Hin; now left). cbn [snd app].
  f_equal. apply IH. intros; apply Hin; now right.
Qed.

Lemma gather_all_ok {A} (hint : list nat) (tasks : list (job A))
    (ev : nat -> list event) (res : nat -> A) :
  (forall i, (i < List.length tasks)%nat ->
     exists j, nth_error tasks i = Some j
               /\ forall t, j t = ((t ++ ev i)%list, ok (res i))) ->
  forall t, gather hint tasks t
            = ((t ++ flat_map ev (completion_order (List.length tasks) hint))%list,
               ok (map res (seq 0 (List.length tasks)))).
Proof.
  intros Hall t. unfold gather, jbind.
  rewrite (run_tasks_all_ok _ ev res).
  - unfold jret, ok. cbv iota beta. fold (@ok (list A)).
    rewrite collect_done; [reflexivity |].
    intros i Hi. apply in_seq in Hi. apply completion_order_complete. lia.
  - intros i Hi t'. apply completion_order_bound in Hi.
    destruct (Hall i Hi) as (j & -> & Hj). apply Hj.
Qed.

Lemma download_tasks_nth_char (w : World) (chars : Characters) (s i : nat)
    (char : Character) :
  nth_error chars i = Some char ->
  nth_error (download_tasks w s chars) i = Some (download_task w (s + i) char).
Proof.
  revert s i. induction chars as [| c chars IH]; intros s i Hi.
  - destruct i; discriminate.
  - destruct i as [| i]; cbn in *.
    + inversion Hi. now rewrite Nat.add_0_r.
    + rewrite (IH (S s) i Hi). do 2 f_equal. lia.
Qed.

Lemma outcomes_all_ok (w : World) (chars : Characters) (s : nat) items :
  all_ok (download_outcomes w s chars) = Some items ->
  List.length items = List.length chars
  /\ forall i char,
       nth_error chars i = Some char ->
       exists item, nth_error items i = Some item
                    /\ download_outcome w (s + i) char = ok item.
Proof.
  revert s items. induction chars as [| c chars IH]; intros s items Hall;
    cbn in Hall.
  - inversion Hall. split; [reflexivity |]. intros [| i] ? Hi; discriminate.
  - destruct (download_outcome w s c) as [e | item] eqn:Ec; [discriminate |].
    destruct (all_ok (download_outcomes w (S s) chars)) as [items' |] eqn:Er;
      [| discriminate].
    inversion Hall; subst items. destruct (IH _ _ Er) as [Hl Hn].
    split; [cbn; congruence |].
    intros [| i] char Hi; cbn in Hi |- *.
    + inversion Hi; subst. rewrite Nat.add_0_r. eauto.
    + destruct (Hn i char Hi) as (item' & Hi' & Ho).
      exists item'. split; [assumption |]. rewrite <- Ho. f_equal. lia.
Qed.

Lemma outcomes_some_fail (w : World) (chars : Characters) (s : nat) :
  all_ok (download_outcomes w s chars) = None ->
  exists i char e,
    nth_error chars i = Some char /\ download_outcome w (s + i) char = raise e.
Proof.
  revert s. induction chars as [| c chars IH]; intros s Hall; cbn in Hall;
    [discriminate |].
  destruct (download_outcome w s c) as [e | item] eqn:Ec.
  - exists 0%nat, c, e. rewrite Nat.add_0_r. auto.
  - destruct (all_ok (download_outcomes w (S s) chars)) eqn:Er; [discriminate |].
    destruct (IH _ Er) as (i & char & e & Hi & Ho).
    exists (S i), char, e. split; [assumption |]. rewrite <- Ho. f_equal. lia.
Qed.

(** The events of the download at position [i] of the finished ones. *)
Lemma map_seq_nth {A B} (l : list A) (g : nat -> B) (f : A -> B) :
  (forall i a, nth_error l i = Some a -> g i = f a) ->
  map g (seq 0 (List.length l)) = map f l.
Proof.
  revert g. induction l as [| a l IH]; intros g Hg; [reflexivity |].
  cbn [List.length seq map]. rewrite (Hg 0%nat a eq_refl). f_equal.
  rewrite <- seq_shift, map_map. apply IH. intros i b Hi. now apply (Hg (S i)).
Qed.
End Downloads.

Section Stages.
Context `{Externals}.

Lemma prepare_resources_all_ok (w : World) (chars : Characters) items :
  all_ok (download_outcomes w 0 chars) = Some items ->
  forall t,
    prepare_resources w chars t
    = ((t ++ flat_map (asset_events_at items)
                 (completion_order (List.length chars) (finish_order w)))%list,
       ok (dict_of_items (map checksum_item items))).
Proof.
  intros Hall t. destruct (outcomes_all_ok _ _ _ _ Hall) as [Hl Hn].
  unfold prepare_resources, jbind.
  rewrite (gather_all_ok (finish_order w) (download_tasks w 0 chars)
             (asset_events_at items)
             (fun i => match nth_error items i with
                       | Some item => checksum_item item
                       | None => (EmptyString, EmptyString)
                       end)).
  - rewrite download_tasks_length, <- Hl.
    rewrite (map_seq_nth items _ checksum_item)
      by (intros i a Hi; now rewrite Hi).
    rewrite Hl. reflexivity.
  - rewrite download_tasks_length. intros i Hi.
    destruct (nth_error chars i) as [char |] eqn:Ec;
      [| apply nth_error_None in Ec; lia].
    exists (download_task w i char). split.
    + apply (download_tasks_nth_char w chars 0 i char Ec).
    + intros t'. rewrite download_task_exact.
      destruct (Hn i char Ec) as (item & Hi' & Ho). cbn in Ho.
      unfold asset_events_at. now rewrite Ho, Hi'.
Qed.

Lemma prepare_resources_some_fail (w : World) (chars : Characters) t :
  all_ok (download_outcomes w 0 chars) = None ->
  exists e, snd (prepare_resources w chars t) = raise e.
Proof.
  intros Hall.
  destruct (prepare_resources w chars t) as [t' [e | d]] eqn:Ep; [cbn; eauto |].
  exfalso.
  destruct (outcomes_some_fail _ _ _ Hall) as (i & char & e & Hi & Ho).
  cbn in Ho.
  unfold prepare_resources in Ep.
  apply jbind_ok in Ep. destruct Ep as (res & t1 & Hg & _).
  unfold gather in Hg. apply jbind_ok in Hg. destruct Hg as (done & t2 & Hrun & _).
  rewrite download_tasks_length in Hrun.
  assert (Hlt : (i < List.length chars)%nat) by (apply nth_error_Some; congruence).
  eapply run_tasks_ok in Hrun; [| apply completion_order_complete, Hlt].
  destruct Hrun as (t0 & t3 & a & Ht).
  rewrite (download_tasks_nth_char w chars 0 i char Hi) in Ht. cbn in Ht.
  rewrite download_task_exact, Ho in Ht. discriminate Ht.
Qed.

Lemma merge_fonts_exact (w : World) (fonts : list ExternalFont) d t :
  merge_fonts w fonts d t = (t, merged_fonts w fonts d).
Proof.
  revert d. induction fonts as [| f fonts IH]; intros d; cbn; [reflexivity |].
  unfold jbind, lift.
  destruct (font_file_checksum w (font_path f)); [apply IH | reflexivity].
Qed.

Lemma merge_stage_exact (w : World) (orig : option StickerPackManifest.t) d t :
  match orig with
  | Some m => merge_fonts w (StickerPackManifest.external_fonts m) d
  | None => jret d
  end t
  = (t, merged_fonts w (prior_fonts orig) d).
Proof. destruct orig; [apply merge_fonts_exact | reflexivity]. Qed.

(** Once every download has succeeded, the fonts and the transformer
    decide the rest of the run. *)
Lemma run_after_downloads (w : World) orig chars items :
  read_original_manifest w = ok orig ->
  characters_json w = ok chars ->
  all_ok (download_outcomes w 0 chars) = Some items ->
  run (transform_sekai_like w)
  = let pre :=
      CharsGot chars
      :: flat_map (asset_events_at items)
           (completion_order (List.length chars) (finish_order w)) in
    match merged_fonts w (prior_fonts orig) (dict_of_items (map checksum_item items)) with
    | inl e => (pre, raise e)
    | inr d =>
        match transform_manifest chars orig with
        | inl e => (pre, raise e)
        | inr m =>
            ((pre ++ [WriteManifest m; WriteChecksum (sort_checksum d)])%list, ok tt)
        end
    end.
Proof.
  intros Ho Hc Hall. unfold run, transform_sekai_like.
  unfold jbind at 1. unfold lift at 1.
  destruct (read_original_manifest w) as [e | orig']; [discriminate Ho |].
  inversion Ho; subst orig'.
  unfold jbind at 1. unfold lift at 1.
  destruct (characters_json w) as [e | chars']; [discriminate Hc |].
  inversion Hc; subst chars'.
  unfold jbind at 1. unfold emit at 1. cbn [app].
  unfold jbind at 1. rewrite (prepare_resources_all_ok w chars items Hall).
  cbn [ok app]. unfold jbind at 1. rewrite merge_stage_exact. cbn zeta.
  destruct (merged_fonts _ _ _) as [e | d]; [reflexivity |].
  unfold jbind at 1. unfold lift at 1.
  destruct (transform_manifest chars orig) as [e | m]; [reflexivity |].
  unfold jbind, emit. cbn [app]. now rewrite <- app_assoc.
Qed.

(** A run that returns has passed every stage. *)
Lemma run_returns (w : World) t :
  run (transform_sekai_like w) = (t, ok tt) ->
  exists orig chars items d m,
    read_original_manifest w = ok orig
    /\ characters_json w = ok chars
    /\ all_ok (download_outcomes w 0 chars) = Some items
    /\ merged_fonts w (prior_fonts orig) (dict_of_items (map checksum_item items)) = ok d
    /\ transform_manifest chars orig = ok m.
Proof.
  intros Hrun.
  destruct (read_original_manifest w) as [e | orig] eqn:Ho.
  { unfold run, transform_sekai_like, jbind at 1, lift at 1 in Hrun.
    rewrite Ho in Hrun. discriminate Hrun. }
  destruct (characters_json w) as [e | chars] eqn:Hc.
  { unfold run, transform_sekai_like, jbind at 1, lift at 1 in Hrun.
    rewrite Ho in Hrun. unfold jbind at 1, lift at 1 in Hrun.
    rewrite Hc in Hrun. discriminate Hrun. }
  destruct (all_ok (download_outcomes w 0 chars)) as [items |] eqn:Hall.
  - rewrite (run_after_downloads w orig chars items Ho Hc Hall) in Hrun.
    cbn zeta in Hrun.
    destruct (merged_fonts _ _ _) as [e | d] eqn:Em; [discriminate Hrun |].
    destruct (transform_manifest chars orig) as [e | m] eqn:Et; [discriminate Hrun |].
    exists orig, chars, items, d, m. auto.
  - exfalso.
    destruct (prepare_resources_some_fail w chars [CharsGot chars] Hall) as (e & He).
    unfold run, transform_sekai_like, jbind at 1, lift at 1 in Hrun.
    rewrite Ho in Hrun. unfold jbind at 1, lift at 1 in Hrun. rewrite Hc in Hrun.
    unfold jbind at 1, emit at 1 in Hrun. cbn [app] in Hrun.
    unfold jbind at 1 in Hrun.
    destruct (prepare_resources w chars [CharsGot chars]) as [t1 r1].
    cbn in He. subst r1. discriminate Hrun.
Qed.
End Stages.

Lemma retry_transparency_witness :
  download_task (H := sample_externals) flaky_world 1 ann []
  = ([WriteAsset "Ann/a.png" [Byte.x30; Byte.x31];
      DownloadFinished "Ann/a.png" "01"],
     ok ("Ann/a.png", "01")).
Proof.
  apply (proj1 (retry_transparency (H := sample_externals) flaky_world 1 ann [])
           2%nat [Byte.x30; Byte.x31] "Ann/a.png").
  - cbn. lia.
  - reflexivity.
  - intros j Hj. cbn. destruct j as [| [| j]]; [reflexivity | reflexivity | lia].
  - reflexivity.
Defined.

(** ** Whole runs *)

Section Runs.
Context `{Externals}.

Lemma retried_ok_first {A} (op : nat -> result A) (budget k : nat) (a : A) :
  retried budget op k = ok a ->
  exists j, (k <= j <= k + budget)%nat /\ op j = ok a
            /\ forall j', (k <= j' < j)%nat -> exists e, op j' = raise e.
Proof.
  revert k. induction budget as [| b IH]; intros k; cbn [retried].
  - destruct (op k) as [e | a'] eqn:E; [discriminate |].
    intros H0. exists k. repeat split; [lia | lia | congruence | intros; lia].
  - destruct (op k) as [e | a'] eqn:E.
    + intros H0. destruct (IH _ H0) as (j & Hj & Hop & Hbefore).
      exists j. repeat split; [lia | lia | assumption |].
      intros j' Hj'. destruct (Nat.eq_dec j' k) as [-> | Hne]; [eauto |].
      apply Hbefore. lia.
    + intros H0. exists k. repeat split; [lia | lia | congruence | intros; lia].
Qed.

Lemma download_outcome_ok (w : World) (i : nat) (char : Character) p body :
  download_outcome w i char = ok (p, body) ->
  to_local_path char = ok p
  /\ exists k, (k <= retries)%nat
               /\ asset_response w i k = Some body
               /\ forall j, (j < k)%nat -> asset_response w i j = None.
Proof.
  unfold download_outcome. intros Ho.
  apply retried_ok_first in Ho. destruct Ho as (k & Hk & Hop & Hbefore).
  unfold attempt in Hop.
  destruct (asset_response w i k) as [body' |] eqn:Eb; [| discriminate].
  destruct (to_local_path char) as [e | p'] eqn:Ep; [discriminate |].
  inversion Hop; subst p' body'.
  split; [reflexivity |]. exists k. repeat split; [lia | assumption |].
  intros j Hj. destruct (Hbefore j) as (e & He); [lia |].
  unfold attempt in He. rewrite Ep in He.
  destruct (asset_response w i j); [discriminate He | reflexivity].
Qed.

Lemma file_writes_assets items (order : list nat) :
  file_writes (flat_map (asset_events_at items) order) = [].
Proof.
  unfold file_writes. induction order as [| i order IH]; [reflexivity |].
  cbn [flat_map]. rewrite filter_app, IH, app_nil_r.
  unfold asset_events_at. destruct (nth_error items i); reflexivity.
Qed.

Lemma file_writes_success chars items (order : list nat) m c :
  file_writes (CharsGot chars :: flat_map (asset_events_at items) order
               ++ [WriteManifest m; WriteChecksum c])%list
  = [WriteManifest m; WriteChecksum c].
Proof.
  pose proof (file_writes_assets items order) as Ha.
  unfold file_writes in *. cbn [filter writes_manifest writes_checksum orb].
  rewrite filter_app, Ha. reflexivity.
Qed.

(** X11. A run that returns has this trace: the characters callback with
    the fetched characters; then, for each character once and in the order
    the downloads finish, the write of its asset directly followed by the
    finish callback with the checksum of what was written; then the write of
    the manifest the transformer makes of the characters and the prior
    manifest; then the write of the checksum file. Each asset is the body
    of the first attempt that answered, written under the local path. *)
Theorem successful_trace (w : World) (t : list event) :
  run (transform_sekai_like w) = (t, ok tt) ->
  exists orig chars items m c order,
    read_original_manifest w = ok orig
    /\ characters_json w = ok chars
    /\ transform_manifest chars orig = ok m
    /\ Permutation order (seq 0 (List.length chars))
    /\ t = (CharsGot chars :: flat_map (asset_events_at items) order
            ++ [WriteManifest m; WriteChecksum c])%list
    /\ List.length items = List.length chars
    /\ forall i char,
         nth_error chars i = Some char ->
         exists p body k,
           nth_error items i = Some (p, body)
           /\ to_local_path char = ok p
           /\ (k <= retries)%nat
           /\ asset_response w i k = Some body
           /\ forall j, (j < k)%nat -> asset_response w i j = None.
Proof.
  intros Hrun.
  destruct (run_returns w t Hrun) as (orig & chars & items & d & m & Ho & Hc & Hall & Hm & Ht).
  rewrite (run_after_downloads w orig chars items Ho Hc Hall) in Hrun.
  cbn zeta in Hrun. rewrite Hm, Ht in Hrun. inversion Hrun as [Etr].
  destruct (outcomes_all_ok _ _ _ _ Hall) as [Hl Hn].
  exists orig, chars, items, m, (sort_checksum d),
    (completion_order (List.length chars) (finish_order w)).
  repeat split; try assumption; try reflexivity.
  - apply completion_order_perm.
  - intros i char Hi. destruct (Hn i char Hi) as ([p body] & Hi' & Hout).
    cbn in Hout. apply download_outcome_ok in Hout.
    destruct Hout as (Hp & k & Hk & Hb & Hbefore).
    exists p, body, k. auto.
Qed.

Lemma retried_ext {A} (op1 op2 : nat -> result A) (budget k : nat) :
  (forall j, op1 j = op2 j) -> retried budget op1 k = retried budget op2 k.
Proof.
  intros Hop. revert k. induction budget as [| b IH]; intros k; cbn [retried];
    rewrite Hop; destruct (op2 k); auto.
Qed.

Lemma download_outcomes_ext (w1 w2 : World) (chars : Characters) (s : nat) :
  (forall i k, asset_response w1 i k = asset_response w2 i k) ->
  download_outcomes w1 s chars = download_outcomes w2 s chars.
Proof.
  intros Hr. revert s. induction chars as [| c chars IH]; intros s; cbn;
    [reflexivity |].
  f_equal; [| apply IH].
  unfold download_outcome. apply retried_ext. intros j.
  unfold attempt. now rewrite Hr.
Qed.

Lemma merged_fonts_ext (w1 w2 : World) (fonts : list ExternalFont) d :
  (forall p, font_file_checksum w1 p = font_file_checksum w2 p) ->
  merged_fonts w1 fonts d = merged_fonts w2 fonts d.
Proof.
  intros Hf. revert d. induction fonts as [| f fonts IH]; intros d; cbn;
    [reflexivity |].
  rewrite Hf. destruct (font_file_checksum w2 (font_path f)); [apply IH | reflexivity].
Qed.

(** X12. The order in which the downloads finish changes nothing but the
    order of the asset events. If a run returns, the run of a world that
    differs only in that order returns too, writes the same manifest and
    the same checksum map, and its trace has the same events. *)
Theorem schedule_independence (w1 w2 : World) (t1 : list event) :
  same_but_schedule w1 w2 ->
  run (transform_sekai_like w1) = (t1, ok tt) ->
  exists t2,
    run (transform_sekai_like w2) = (t2, ok tt)
    /\ file_writes t2 = file_writes t1
    /\ Permutation t1 t2.
Proof.
  intros (Hmf & Hcj & Har & Hff) Hrun.
  destruct (run_returns w1 t1 Hrun)
    as (orig & chars & items & d & m & Ho & Hc & Hall & Hm & Ht).
  rewrite (run_after_downloads w1 orig chars items Ho Hc Hall) in Hrun.
  cbn zeta in Hrun. rewrite Hm, Ht in Hrun. inversion Hrun as [Etr]. clear Hrun.
  assert (Ho2 : read_original_manifest w2 = ok orig).
  { unfold read_original_manifest in *. now rewrite <- Hmf. }
  assert (Hc2 : characters_json w2 = ok chars) by now rewrite <- Hcj.
  assert (Hall2 : all_ok (download_outcomes w2 0 chars) = Some items).
  { now rewrite <- (download_outcomes_ext w1 w2 chars 0 Har). }
  assert (Hm2 : merged_fonts w2 (prior_fonts orig)
                  (dict_of_items (map checksum_item items)) = ok d).
  { now rewrite <- (merged_fonts_ext w1 w2 _ _ Hff). }
  eexists. split.
  - rewrite (run_after_downloads w2 orig chars items Ho2 Hc2 Hall2).
    cbn zeta. rewrite Hm2, Ht. reflexivity.
  - split.
    + subst t1. cbn [app]. now rewrite !file_writes_success.
    + subst t1. cbn [app].
      apply perm_skip, Permutation_app_tail, Permutation_flat_map.
      rewrite !completion_order_perm. reflexivity.
Qed.

(** X13. A run stops at the first stage that fails, before anything else
    happens. If the manifest file is there and does not validate, the run
    raises that exception and its trace is empty: nothing is fetched. If
    the characters cannot be fetched, the run raises that exception and its
    trace is empty: no callback, no download. *)
Theorem early_failures_leave_no_trace (w : World) :
  (forall e, read_original_manifest w = raise e ->
             run (transform_sekai_like w) = ([], raise e))
  /\ (forall orig e,
        read_original_manifest w = ok orig ->
        characters_json w = raise e ->
        run (transform_sekai_like w) = ([], raise e)).
Proof.
  split.
  - intros e Ho. unfold run, transform_sekai_like, jbind at 1, lift at 1.
    now rewrite Ho.
  - intros orig e Ho Hc. unfold run, transform_sekai_like, jbind at 1, lift at 1.
    rewrite Ho. unfold jbind at 1, lift at 1. now rewrite Hc.
Qed.

Lemma merged_fonts_raises (w : World) (fonts : list ExternalFont) d e :
  merged_fonts w fonts d = raise e ->
  exists f, In f fonts
            /\ font_file_checksum w (font_path f) = None
            /\ e = MissingFontFile (font_path f).
Proof.
  revert d. induction fonts as [| f fonts IH]; intros d; cbn; [discriminate |].
  destruct (font_file_checksum w (font_path f)) eqn:Ef.
  - intros Hr. destruct (IH _ Hr) as (g & Hg & Hn & He). exists g. auto.
  - intros Hr. inversion Hr. exists f. auto.
Qed.

(** X14. The fonts are checked and the colours are normalised only after
    every asset is downloaded. When all downloads succeed and a font of the
    prior manifest is missing, or the transformer raises (a colour of the
    wrong length, an empty category), the run raises that exception; by
    then every asset has been written and reported, and neither the
    manifest nor the checksum file is written. *)
Theorem late_failures_keep_assets (w : World) (orig : option StickerPackManifest.t)
    (chars : Characters) (items : list (string * list Byte.byte)) :
  read_original_manifest w = ok orig ->
  characters_json w = ok chars ->
  all_ok (download_outcomes w 0 chars) = Some items ->
  let pre :=
    CharsGot chars
    :: flat_map (asset_events_at items)
         (completion_order (List.length chars) (finish_order w)) in
  let d0 := dict_of_items (map checksum_item items) in
  (forall e, merged_fonts w (prior_fonts orig) d0 = raise e ->
             run (transform_sekai_like w) = (pre, raise e)
             /\ exists f, In f (prior_fonts orig)
                          /\ font_file_checksum w (font_path f) = None
                          /\ e = MissingFontFile (font_path f))
  /\ (forall d e, merged_fonts w (prior_fonts orig) d0 = ok d ->
                  transform_manifest chars orig = raise e ->
                  run (transform_sekai_like w) = (pre, raise e))
  /\ file_writes pre = [].
Proof.
  intros Ho Hc Hall pre d0.
  pose proof (run_after_downloads w orig chars items Ho Hc Hall) as Hrun.
  cbn zeta in Hrun. fold pre d0 in Hrun.
  split; [| split].
  - intros e He. rewrite He in Hrun. split; [exact Hrun |].
    now apply merged_fonts_raises in He.
  - intros d e Hd He. now rewrite Hd, He in Hrun.
  - subst pre. unfold file_writes. cbn [filter writes_manifest writes_checksum orb].
    apply file_writes_assets.
Qed.
End Runs.

Section RunWitnesses.
#[local] Existing Instance sample_externals.

Lemma successful_trace_witness :
  exists orig chars items m c order,
    read_original_manifest (H := sample_externals) flaky_world = ok orig
    /\ characters_json flaky_world = ok chars
    /\ transform_manifest chars orig = ok m
    /\ Permutation order (seq 0 (List.length chars))
    /\ fst (run (transform_sekai_like flaky_world))
       = (CharsGot chars :: flat_map (asset_events_at items) order
          ++ [WriteManifest m; WriteChecksum c])%list
    /\ List.length items = List.length chars
    /\ forall i char,
         nth_error chars i = Some char ->
         exists p body k,
           nth_error items i = Some (p, body)
           /\ to_local_path char = ok p
           /\ (k <= retries)%nat
           /\ asset_response flaky_world i k = Some body
           /\ forall j, (j < k)%nat -> asset_response flaky_world i j = None.
Proof.
  exact (successful_trace (H := sample_externals) flaky_world _ eq_refl).
Defined.

Lemma schedule_independence_witness :
  exists t2,
    run (transform_sekai_like sample_world_in_order) = (t2, ok tt)
    /\ file_writes t2 = file_writes (fst (run (transform_sekai_like sample_world)))
    /\ Permutation (fst (run (transform_sekai_like sample_world))) t2.
Proof.
  apply (schedule_independence (H := sample_externals) sample_world
           sample_world_in_order).
  - repeat split.
  - reflexivity.
Defined.

Lemma late_failures_keep_assets_witness :
  run (transform_sekai_like (H := sample_externals) bad_colour_world)
  = ([CharsGot [ann;
        Sekai (SekaiCharacter.mk "5" "Cat" "cat" "c.png" "#12345" (sample_text 0))];
      WriteAsset "Ann/a.png" [Byte.x30]; DownloadFinished "Ann/a.png" "0";
      WriteAsset "Cat/c.png" [Byte.x30]; DownloadFinished "Cat/c.png" "0"],
     raise InvalidColorFormat).
Proof.
  exact (proj1 (proj2 (late_failures_keep_assets (H := sample_externals)
                         bad_colour_world None _ [("Ann/a.png", [Byte.x30]);
                                                  ("Cat/c.png", [Byte.x30])]
                         eq_refl eq_refl eq_refl))
           _ InvalidColorFormat eq_refl eq_refl).
Defined.
End RunWitnesses.

(** ** The checksum map *)

Lemma dict_get_set (d : ChecksumDict) (k v k' : string) :
  dict_get (dict_set d k v) k' = if String.eqb k k' then Some v else dict_get d k'.
Proof.
  induction d as [| [k0 v0] d IH]; cbn.
  - reflexivity.
  - destruct (String.eqb_spec k0 k) as [-> | Hne]; cbn.
    + destruct (String.eqb k k'); reflexivity.
    + rewrite IH. destruct (String.eqb_spec k0 k') as [-> | Hne'];
        [| reflexivity].
      destruct (String.eqb_spec k k'); [congruence | reflexivity].
Qed.

Lemma dict_get_app (a b : ChecksumDict) (k : string) :
  dict_get (a ++ b)%list k
  = match dict_get a k with Some v => Some v | None => dict_get b k end.
Proof.
  induction a as [| [k0 v0] a IH]; cbn; [reflexivity |].
  destruct (String.eqb k0 k); [reflexivity | apply IH].
Qed.

(** In [dict(items)] a key has the value of its last item. *)
Lemma dict_get_of_items_acc (items : list (string * string)) (acc : ChecksumDict)
    (k : string) :
  dict_get (fold_left (fun d kv => dict_set d (fst kv) (snd kv)) items acc) k
  = match dict_get (rev items) k with
    | Some v => Some v
    | None => dict_get acc k
    end.
Proof.
  revert acc. induction items as [| [k0 v0] items IH]; intros acc; cbn [fold_left rev].
  - reflexivity.
  - rewrite IH, dict_get_app, dict_get_set. cbn.
    destruct (dict_get (rev items) k); [reflexivity |].
    destruct (String.eqb k0 k); reflexivity.
Qed.

Lemma dict_get_of_items (items : list (string * string)) (k : string) :
  dict_get (dict_of_items items) k = dict_get (rev items) k.
Proof.
  unfold dict_of_items. rewrite dict_get_of_items_acc.
  destruct (dict_get (rev items) k); reflexivity.
Qed.

Lemma dict_get_none (d : ChecksumDict) (k : string) :
  dict_get d k = None <-> ~ In k (keys d).
Proof.
  induction d as [| [k0 v0] d IH]; cbn; [tauto |].
  destruct (String.eqb_spec k0 k) as [-> | Hne].
  - split; [discriminate | tauto].
  - rewrite IH. tauto.
Qed.

Lemma dict_get_in (d : ChecksumDict) (k v : string) :
  dict_get d k = Some v -> In (k, v) d.
Proof.
  induction d as [| [k0 v0] d IH]; cbn; [discriminate |].
  destruct (String.eqb_spec k0 k) as [-> | Hne].
  - intros E. inversion E. now left.
  - auto.
Qed.

Lemma dict_get_nodup (d : ChecksumDict) (k v : string) :
  NoDup (keys d) -> In (k, v) d -> dict_get d k = Some v.
Proof.
  induction d as [| [k0 v0] d IH]; cbn; intros Hn Hin; [destruct Hin |].
  inversion Hn as [| ? ? Hk Hn']; subst.
  destruct Hin as [E | Hin].
  - inversion E; subst. now rewrite String.eqb_refl.
  - destruct (String.eqb_spec k0 k) as [-> | Hne]; [| auto].
    exfalso. apply Hk. unfold keys. apply in_map_iff. now exists (k, v).
Qed.

(** A dictionary and a rearrangement of it answer alike. *)
Lemma dict_get_perm (d d' : ChecksumDict) (k : string) :
  NoDup (keys d) -> Permutation d' d -> dict_get d' k = dict_get d k.
Proof.
  intros Hn Hp.
  assert (Hn' : NoDup (keys d')).
  { unfold keys. eapply Permutation_NoDup; [| exact Hn].
    apply Permutation_map. symmetry. exact Hp. }
  destruct (dict_get d k) as [v |] eqn:E.
  - apply dict_get_nodup; [assumption |].
    eapply Permutation_in; [symmetry; exact Hp | now apply dict_get_in].
  - apply dict_get_none. apply dict_get_none in E. intros Hin. apply E.
    unfold keys in *. eapply Permutation_in; [| exact Hin].
    now apply Permutation_map.
Qed.

Lemma sort_checksum_get (d : ChecksumDict) (k : string) :
  NoDup (keys d) -> dict_get (sort_checksum d) k = dict_get d k.
Proof.
  intros Hn. apply dict_get_perm; [assumption |]. now apply sort_checksum_sorted.
Qed.

Section ChecksumMap.
Context `{Externals}.

Lemma prepare_resources_returns (w : World) (chars : Characters) t t' d :
  prepare_resources w chars t = (t', ok d) ->
  exists items,
    all_ok (download_outcomes w 0 chars) = Some items
    /\ d = dict_of_items (map checksum_item items).
Proof.
  intros Hp.
  destruct (all_ok (download_outcomes w 0 chars)) as [items |] eqn:Hall.
  - exists items. split; [reflexivity |].
    rewrite (prepare_resources_all_ok w chars items Hall) in Hp. now inversion Hp.
  - destruct (prepare_resources_some_fail w chars t Hall) as (e & He).
    rewrite Hp in He. discriminate He.
Qed.

(** X15. The map the download stage returns has the local paths of the
    characters as its keys and no other. The value under a path is the
    checksum of the body received, in the first attempt that answered, for
    the last character of the list with that path: when two characters share
    a path, the later one is the one recorded. *)
Theorem checksums_of_downloads (w : World) (chars : Characters)
    (t t' : list event) (d : ChecksumDict) :
  prepare_resources w chars t = (t', ok d) ->
  (forall p, dict_get d p <> None
             <-> exists char, In char chars /\ to_local_path char = ok p)
  /\ (forall i char p,
        nth_error chars i = Some char ->
        to_local_path char = ok p ->
        (forall j char', (i < j)%nat -> nth_error chars j = Some char' ->
                         to_local_path char' <> ok p) ->
        exists body k,
          (k <= retries)%nat
          /\ asset_response w i k = Some body
          /\ (forall j, (j < k)%nat -> asset_response w i j = None)
          /\ dict_get d p = Some (calc_checksum body)).
Proof.
  intros Hp.
  destruct (prepare_resources_returns _ _ _ _ _ Hp) as (items & Hall & ->).
  destruct (outcomes_all_ok _ _ _ _ Hall) as [Hl Hn].
  assert (Hitem : forall i item, nth_error items i = Some item ->
            exists char, nth_error chars i = Some char
                         /\ to_local_path char = ok (fst item)).
  { intros i item Hi.
    destruct (nth_error chars i) as [char |] eqn:Ec.
    - destruct (Hn i char Ec) as ([p body] & Hi' & Ho). cbn in Ho.
      rewrite Hi in Hi'. inversion Hi'; subst item.
      apply download_outcome_ok in Ho. exists char. tauto.
    - apply nth_error_None in Ec. assert (i < List.length items)%nat; [| lia].
      apply nth_error_Some. congruence. }
  split.
  - intros p. rewrite dict_get_of_items. split.
    + intros Hg. destruct (dict_get _ p) as [h |] eqn:E; [| congruence].
      apply dict_get_in, in_rev, in_map_iff in E.
      destruct E as (item & Ei & Hin). inversion Ei; subst p.
      apply In_nth_error in Hin. destruct Hin as (i & Hi).
      destruct (Hitem i item Hi) as (char & Hc & Hpath).
      exists char. split; [eapply nth_error_In, Hc | assumption].
    + intros (char & Hin & Hpath) Hg.
      apply dict_get_none in Hg. apply Hg.
      apply In_nth_error in Hin. destruct Hin as (i & Hi).
      destruct (Hn i char Hi) as ([p' body] & Hi' & Ho). cbn in Ho.
      apply download_outcome_ok in Ho. destruct Ho as [Hp' _].
      rewrite Hpath in Hp'. inversion Hp'; subst p'.
      unfold keys. rewrite map_rev, <- in_rev, map_map. cbn.
      apply in_map_iff. exists (p, body). split; [reflexivity |].
      eapply nth_error_In, Hi'.
  - intros i char p Hi Hpath Hlater.
    destruct (Hn i char Hi) as ([p' body] & Hi' & Ho). cbn in Ho.
    apply download_outcome_ok in Ho. destruct Ho as (Hp' & k & Hk & Hb & Hbefore).
    rewrite Hpath in Hp'. inversion Hp'; subst p'.
    exists body, k. repeat split; try assumption.
    rewrite dict_get_of_items.
    apply nth_error_split in Hi'. destruct Hi' as (l1 & l2 & -> & Hlen).
    rewrite map_app, rev_app_distr. cbn [map rev]. rewrite <- app_assoc.
    rewrite dict_get_app.
    assert (Hnone : dict_get (rev (map checksum_item l2)) p = None).
    { apply dict_get_none. unfold keys. rewrite map_rev, <- in_rev, map_map.
      intros Hin. apply in_map_iff in Hin. destruct Hin as (item & Ei & Hin).
      cbn in Ei. apply In_nth_error in Hin. destruct Hin as (j & Hj).
      assert (Hj' : nth_error (l1 ++ (p, body) :: l2)%list (S (List.length l1 + j))
                    = Some item).
      { rewrite nth_error_app2 by lia.
        replace (S (List.length l1 + j) - List.length l1)%nat with (S j) by lia.
        exact Hj. }
      destruct (Hitem _ _ Hj') as (char' & Hc' & Hpath').
      apply (Hlater (S (List.length l1 + j)) char'); [lia | assumption |].
      now rewrite Hpath', Ei. }
    rewrite Hnone. cbn. now rewrite String.eqb_refl.
Qed.

Lemma merged_fonts_get (w : World) (fonts : list ExternalFont) d d' :
  merged_fonts w fonts d = ok d' ->
  forall p,
    dict_get d' p
    = if existsb (fun f => String.eqb (font_path f) p) fonts
      then font_file_checksum w p
      else dict_get d p.
Proof.
  revert d. induction fonts as [| f fonts IH]; intros d Hm p; cbn in *.
  - now inversion Hm.
  - destruct (font_file_checksum w (font_path f)) as [h |] eqn:Ef; [| discriminate].
    rewrite (IH _ Hm p), dict_get_set.
    destruct (existsb _ fonts) eqn:Ex;
      destruct (String.eqb_spec (font_path f) p) as [<- | Hne]; cbn;
      congruence.
Qed.

Lemma merged_fonts_nodup (w : World) (fonts : list ExternalFont) d d' :
  merged_fonts w fonts d = ok d' -> NoDup (keys d) -> NoDup (keys d').
Proof.
  revert d. induction fonts as [| f fonts IH]; intros d Hm Hn; cbn in Hm.
  - inversion Hm; subst; assumption.
  - destruct (font_file_checksum w (font_path f)); [| discriminate].
    eapply IH; [exact Hm | now apply dict_set_nodup].
Qed.

(** X16. The checksum file of a run that returns answers, for the path of
    a font of the prior manifest, with the checksum of the font's file, also
    when an asset has the same path; for every other path it answers as
    the map of the download stage does. *)
Theorem written_checksum_map (w : World) (t : list event) :
  run (transform_sekai_like w) = (t, ok tt) ->
  exists orig chars t' d0 c,
    read_original_manifest w = ok orig
    /\ characters_json w = ok chars
    /\ prepare_resources w chars [CharsGot chars] = (t', ok d0)
    /\ In (WriteChecksum c) t
    /\ forall p,
         dict_get c p
         = if existsb (fun f => String.eqb (font_path f) p) (prior_fonts orig)
           then font_file_checksum w p
           else dict_get d0 p.
Proof.
  intros Hrun.
  destruct (run_returns w t Hrun)
    as (orig & chars & items & d & m & Ho & Hc & Hall & Hm & Ht).
  rewrite (run_after_downloads w orig chars items Ho Hc Hall) in Hrun.
  cbn zeta in Hrun. rewrite Hm, Ht in Hrun. inversion Hrun as [Etr].
  exists orig, chars. eexists. exists (dict_of_items (map checksum_item items)).
  exists (sort_checksum d). repeat split; try assumption.
  - apply (prepare_resources_all_ok w chars items Hall).
  - apply in_cons, in_or_app. right. right. now left.
  - intros p. rewrite sort_checksum_get.
    + now apply (merged_fonts_get w _ _ _ Hm).
    + eapply merged_fonts_nodup; [exact Hm | apply dict_of_items_nodup].
Qed.
End ChecksumMap.

Section MapWitnesses.
#[local] Existing Instance sample_externals.

Lemma checksums_of_downloads_witness :
  exists body k,
    (k <= retries)%nat
    /\ asset_response flaky_world 1 k = Some body
    /\ (forall j, (j < k)%nat -> asset_response flaky_world 1 j = None)
    /\ dict_get (dict_of_items [("Bob/b.png", "01"); ("Ann/a.png", "01")]) "Ann/a.png"
       = Some (calc_checksum body).
Proof.
  apply (proj2 (checksums_of_downloads flaky_world [bob; ann] [] _ _ eq_refl)
           1%nat ann "Ann/a.png" eq_refl eq_refl).
  intros j char' Hj Hc. destruct j as [| [| j]]; [lia | lia |].
  destruct j; discriminate Hc.
Defined.

Lemma written_checksum_map_witness :
  exists c, In (WriteChecksum c) (fst (run (transform_sekai_like sample_world)))
            /\ dict_get c "fonts/a.ttf" = Some "font".
Proof.
  destruct (written_checksum_map sample_world _ eq_refl)
    as (orig & chars & t' & d0 & c & Ho & _ & _ & Hin & Hget).
  exists c. split; [exact Hin |].
  rewrite Hget. inversion Ho. reflexivity.
Defined.
End MapWitnesses.

(** ** The entry point *)

Section Main.
Context `{Externals}.

Lemma transform_task_result (cfg : TransformTaskConfig.t) (w : World) :
  snd (transform_task cfg w) = snd (run (transform_sekai_like w)).
Proof.
  unfold transform_task.
  destruct (run (transform_sekai_like w)) as [t [e | []]]; reflexivity.
Qed.

Lemma run_returns_iff_written (w : World) :
  snd (run (transform_sekai_like w)) = ok tt
  <-> exists pre m c,
        fst (run (transform_sekai_like w))
        = (pre ++ [WriteManifest m; WriteChecksum c])%list.
Proof.
  destruct (run (transform_sekai_like w)) as [t r] eqn:Hrun. cbn [fst snd].
  destruct (transform_sekai_like_run w t r Hrun)
    as [(e & -> & Hq)
       | (orig & chars & d & m & pre & _ & _ & _ & _ & _ & _ & Hq & -> & ->)].
  - split; [discriminate |]. intros (pre & m & c & ->).
    exfalso. apply (quiet_not_checksum _ c Hq).
    apply in_or_app. right. right. now left.
  - split; [eauto | reflexivity].
Qed.

(** X17. [_main] runs both configured jobs whatever the other does, and its
    status is 0 or 1: it is 0 exactly when the job of every configuration
    returned, that is when each of them ended by writing its manifest and
    its checksum file; one job that raises makes it 1. A job that raises has
    its exception printed and its bar marked as an error, and its task is
    not stopped. *)
Theorem main_status (world_of : TransformTaskConfig.t -> World) :
  List.length (fst (_main world_of)) = 2%nat
  /\ (snd (_main world_of) = 0 \/ snd (_main world_of) = 1)
  /\ (snd (_main world_of) = 0
      <-> forall cfg, In cfg task_configs ->
            exists pre m c,
              fst (run (transform_sekai_like (world_of cfg)))
              = (pre ++ [WriteManifest m; WriteChecksum c])%list)
  /\ (forall cfg e,
        snd (run (transform_sekai_like (world_of cfg))) = raise e ->
        exists log,
          fst (transform_task cfg (world_of cfg))
          = (log ++ [TracebackPrinted e;
                     TaskError (TransformTaskConfig.name cfg ++ ": Error")])%list
          /\ ~ In TaskStopped (fst (transform_task cfg (world_of cfg)))).
Proof.
  split; [reflexivity |]. split; [| split].
  - unfold _main. cbn [snd]. destruct (existsb _ _); auto.
  - unfold _main, task_configs. cbn [snd map existsb].
    rewrite !transform_task_result.
    set (c1 := TransformTaskConfig.mk "pjsk" _ _).
    set (c2 := TransformTaskConfig.mk "arcaea" _ _).
    pose proof (run_returns_iff_written (world_of c1)) as H1.
    pose proof (run_returns_iff_written (world_of c2)) as H2.
    destruct (snd (run (transform_sekai_like (world_of c1)))) as [e1 | []] eqn:E1;
      destruct (snd (run (transform_sekai_like (world_of c2)))) as [e2 | []] eqn:E2;
      cbn.
    + split; [discriminate |]. intros Hall.
      specialize (Hall c1 (or_introl eq_refl)). apply H1 in Hall. discriminate Hall.
    + split; [discriminate |]. intros Hall.
      specialize (Hall c1 (or_introl eq_refl)). apply H1 in Hall. discriminate Hall.
    + split; [discriminate |]. intros Hall.
      specialize (Hall c2 (or_intror (or_introl eq_refl))).
      apply H2 in Hall. discriminate Hall.
    + split; [| reflexivity]. intros _ cfg [<- | [<- | []]].
      * now apply H1.
      * now apply H2.
  - intros cfg e He. unfold transform_task.
    destruct (run (transform_sekai_like (world_of cfg))) as [t r]. cbn in He.
    subst r. cbn [fst]. eexists. split; [reflexivity |].
    intros Hin. cbn in Hin. destruct Hin as [Hin | Hin]; [discriminate Hin |].
    apply in_app_iff in Hin. destruct Hin as [Hin | [Hin | [Hin | []]]];
      try discriminate Hin.
    apply in_map_iff in Hin. destruct Hin as (x & Hx & _). discriminate Hx.
Qed.
End Main.

Section MainWitnesses.
#[local] Existing Instance sample_externals.

Lemma main_status_witness :
  exists log,
    fst (transform_task (TransformTaskConfig.mk "arcaea" "" "") failing_world)
    = (log ++ [TracebackPrinted DownloadFailed; TaskError "arcaea: Error"])%list
    /\ ~ In TaskStopped
           (fst (transform_task (TransformTaskConfig.mk "arcaea" "" "") failing_world)).
Proof.
  exact (proj2 (proj2 (proj2 (main_status (fun _ => failing_world))))
           (TransformTaskConfig.mk "arcaea" "" "") DownloadFailed eq_refl).
Defined.
End MainWitnesses.

Section EarlyWitness.
#[local] Existing Instance sample_externals.

Lemma early_failures_leave_no_trace_witness :
  run (transform_sekai_like offline_world) = ([], raise FetchFailed).
Proof.
  exact (proj2 (early_failures_leave_no_trace offline_world)
           (Some sample_manifest) FetchFailed eq_refl eq_refl).
Defined.
End EarlyWitness.

(** ** The sorted map is canonical *)

Lemma split_on_not_nil (sep : ascii) (s : string) : split_on sep s <> [].
Proof.
  destruct s as [| c s]; cbn; [discriminate |].
  destruct (Ascii.eqb c sep); [discriminate |].
  destruct (split_on sep s); discriminate.
Qed.

Lemma concat_cons2 (sp x y : string) (l : list string) :
  String.concat sp (x :: y :: l) = x ++ sp ++ String.concat sp (y :: l).
Proof. reflexivity. Qed.

(** Joining the pieces with the separator gives the string back. *)
Lemma join_split_on (sep : ascii) (s : string) :
  join (String sep "") (split_on sep s) = s.
Proof.
  unfold join. induction s as [| c s IH]; cbn [split_on]; [reflexivity |].
  pose proof (split_on_not_nil sep s) as Hnn.
  destruct (split_on sep s) as [| piece pieces]; [contradiction |].
  destruct (Ascii.eqb_spec c sep) as [-> | Hne].
  - rewrite concat_cons2, IH. reflexivity.
  - destruct pieces as [| q r].
    + cbn in IH |- *. now rewrite IH.
    + rewrite concat_cons2. rewrite concat_cons2 in IH.
      change (String c (piece ++ String sep "" ++ String.concat (String sep "") (q :: r))
              = String c s).
      f_equal. exact IH.
Qed.

Lemma split_on_inj (sep : ascii) (s s' : string) :
  split_on sep s = split_on sep s' -> s = s'.
Proof.
  intros E. rewrite <- (join_split_on sep s), <- (join_split_on sep s'). now rewrite E.
Qed.

Lemma sorted_perm_unique {A} (le : A -> A -> Prop) (l1 l2 : list A) :
  StronglySorted le l1 -> StronglySorted le l2 -> Permutation l1 l2 ->
  (forall a b, In a l1 -> In b l1 -> le a b -> le b a -> a = b) ->
  l1 = l2.
Proof.
  intros H1. revert l2. induction H1 as [| a l1 Hs IH Ha]; intros l2 H2 Hp Hanti.
  - apply Permutation_nil in Hp. now subst.
  - destruct l2 as [| b l2].
    { apply Permutation_sym, Permutation_nil in Hp. discriminate Hp. }
    inversion H2 as [| ? ? Hs2 Hb]; subst.
    assert (Eab : a = b).
    { assert (Hin_a : In a (b :: l2)) by (eapply Permutation_in; [exact Hp | now left]).
      assert (Hin_b : In b (a :: l1))
        by (eapply Permutation_in; [symmetry; exact Hp | now left]).
      destruct Hin_a as [-> | Hin_a]; [reflexivity |].
      destruct Hin_b as [-> | Hin_b]; [reflexivity |].
      rewrite Forall_forall in Ha, Hb.
      apply Hanti; [now left | now right | now apply Ha | now apply Hb]. }
    subst b. f_equal. apply IH; [assumption | |].
    + eapply Permutation_cons_inv, Hp.
    + intros x y Hx Hy. apply Hanti; now right.
Qed.

Lemma same_key_same_item (d : ChecksumDict) (a b : string * string) :
  NoDup (keys d) -> In a d -> In b d -> fst a = fst b -> a = b.
Proof.
  intros Hn Ha Hb E. destruct a as [k v], b as [k' v']. cbn in E. subst k'.
  pose proof (dict_get_nodup d k v Hn Ha) as Ga.
  pose proof (dict_get_nodup d k v' Hn Hb) as Gb.
  congruence.
Qed.

(** X18. The sorted map is canonical: two maps with the same entries,
    each key once, in whatever order they were filled, sort to the same map.
    So sorting a sorted map again changes nothing. *)
Theorem sort_checksum_canonical (d d' : ChecksumDict) :
  NoDup (keys d) ->
  Permutation d d' ->
  sort_checksum d = sort_checksum d'
  /\ sort_checksum (sort_checksum d) = sort_checksum d.
Proof.
  intros Hn Hp.
  assert (Hcanon : forall d1 d2, NoDup (keys d1) -> Permutation d1 d2 ->
                                 sort_checksum d1 = sort_checksum d2).
  { clear d d' Hn Hp. intros d d' Hn Hp.
    assert (Hn' : NoDup (keys d')).
    { unfold keys. eapply Permutation_NoDup; [| exact Hn]. now apply Permutation_map. }
    rewrite (sort_checksum_unfold d Hn), (sort_checksum_unfold d' Hn').
    apply (sorted_perm_unique (key_le list_lt path_segments)).
    - apply sorted_by_sorted; [apply list_lt_asym |].
      intros a b c. apply segments_le_trans.
    - apply sorted_by_sorted; [apply list_lt_asym |].
      intros a b c. apply segments_le_trans.
    - rewrite !sorted_by_perm. exact Hp.
    - intros a b Ha Hb Hab Hba.
      apply (Permutation_in _ (sorted_by_perm list_lt path_segments d)) in Ha, Hb.
      apply (same_key_same_item d); try assumption.
      unfold key_le in Hab, Hba. rewrite list_lt_compare in Hab, Hba.
      rewrite (list_compare_antisym (path_segments a) (path_segments b)) in Hba.
      destruct (list_compare (path_segments b) (path_segments a)) eqn:Ec;
        try discriminate.
      apply list_compare_eq in Ec. unfold path_segments in Ec.
      apply split_on_inj in Ec. congruence. }
  split; [now apply Hcanon |].
  symmetry. apply Hcanon; [assumption |].
  symmetry. now apply sort_checksum_sorted.
Qed.

Lemma sort_checksum_canonical_witness :
  sort_checksum [("Zeta/b.png", "1"); ("Alpha/a.png", "2"); ("fonts/f.ttf", "3")]
  = sort_checksum [("fonts/f.ttf", "3"); ("Zeta/b.png", "1"); ("Alpha/a.png", "2")].
Proof.
  apply (sort_checksum_canonical
           [("Zeta/b.png", "1"); ("Alpha/a.png", "2"); ("fonts/f.ttf", "3")]
           [("fonts/f.ttf", "3"); ("Zeta/b.png", "1"); ("Alpha/a.png", "2")]).
  - repeat constructor; cbn; intuition discriminate.
  - apply Permutation_sym, (Permutation_cons_app [_; _] []). reflexivity.
Defined.
